(** * Mail-Organiser: the view-model shaping of [src/App.tsx] and the
      extraction contract of [src/services/geminiService.ts]

    The development embeds the pure parts of the application: the data
    model of [src/types.ts], the deletion handler [handleDeleteEmail], the
    memoised [sortedData] and the service function [organizeEmails].

    JavaScript arrays are lists, [Array.prototype.map] is [map], an index
    read [a[i]] is the list lookup [a !! i] ([None] for [undefined]), and a
    JavaScript number that holds an integer is a [Z]. *)

From Stdlib Require Import ZArith Lia Ascii.
From stdpp Require Import base list strings sorting.

Open Scope Z_scope.

Set Warnings "-register-all".

(** ** Data model ([src/types.ts]) *)

Record Email := {
  subject : string;
  date : string;
  summary : string
}.

Record OrganizedEmailGroup := {
  senderName : string;
  senderEmail : string;
  emails : list Email
}.

Inductive SortOrder := newest | oldest.

Global Instance Email_eq_dec : EqDecision Email.
Proof. solve_decision. Defined.

Global Instance OrganizedEmailGroup_eq_dec : EqDecision OrganizedEmailGroup.
Proof. solve_decision. Defined.

Global Instance SortOrder_eq_dec : EqDecision SortOrder.
Proof. solve_decision. Defined.

(** ** The array methods the handlers use *)

Module JsArray.
Section Methods.
Context {A : Type}.

(** [arr.filter((element, index) => p)] keeps the elements whose callback
    is truthy; the callback receives the position of the element in the
    array that is being filtered. [filter_from] carries that position. *)
Fixpoint filter_from (p : A → nat → bool) (k : nat) (arr : list A) : list A :=
  match arr with
  | [] => []
  | x :: rest =>
      if p x k then x :: filter_from p (S k) rest
      else filter_from p (S k) rest
  end.

Definition filter (p : A → nat → bool) (arr : list A) : list A :=
  filter_from p 0%nat arr.

(** [arr.sort(comparefn)]. ECMAScript requires the sort to be stable, and
    it looks only at the sign of what [comparefn] returns: a positive
    number puts the first argument after the second. For a comparator
    that is a total preorder the stable sorted order is unique, whatever
    algorithm the engine runs; the model is the insertion sort that
    yields it. [insert x sorted] moves [x] past the elements it compares
    strictly greater than, so it stays in front of its equals, which
    come later in the input. *)
Fixpoint insert (comparefn : A → A → Z) (x : A) (sorted : list A) : list A :=
  match sorted with
  | [] => [x]
  | y :: rest =>
      if 0 <? comparefn x y then y :: insert comparefn x rest
      else x :: y :: rest
  end.

Fixpoint sort (comparefn : A → A → Z) (arr : list A) : list A :=
  match arr with
  | [] => []
  | x :: rest => insert comparefn x (sort comparefn rest)
  end.
End Methods.
End JsArray.

(** ** View-model shaping ([src/App.tsx]) *)

Section ViewModel.
(** [getTime s] is [new Date(s).getTime()]: the time value in
    milliseconds, an integer of magnitude at most 8.64e15, or [None]
    where JavaScript yields [NaN] (an invalid date). What strings parse
    is the engine's business, so the parser is a parameter. *)
Variable getTime : string → option Z.

(** The comparator body that [sortedData] writes out twice, at lines
    145-157 for two emails and at lines 169-180 for the first emails of
    two groups. Time values are integers below 2^54, so the sign of the
    floating-point difference is the sign of the difference in [Z]. *)
Definition compareDates (sortOrder : SortOrder) (a b : Email) : Z :=
  let timeA := getTime (date a) in
  let timeB := getTime (date b) in
  match timeA, timeB with
  | Some tA, Some tB =>
      match sortOrder with
      | newest => tB - tA
      | oldest => tA - tB
      end
  | Some _, None => -1
  | None, Some _ => 1
  | None, None => 0
  end.

Definition compareGroups (sortOrder : SortOrder)
    (a b : OrganizedEmailGroup) : Z :=
  let firstEmailA := emails a !! 0%nat in
  let firstEmailB := emails b !! 0%nat in
  match firstEmailA, firstEmailB with
  | None, None => 0
  | None, Some _ => 1
  | Some _, None => -1
  | Some ea, Some eb => compareDates sortOrder ea eb
  end.

(** The object built for each group at lines 142-159: the group's fields
    spread, [emails] replaced by a sorted copy. *)
Definition withSortedEmails (sortOrder : SortOrder)
    (group : OrganizedEmailGroup) : OrganizedEmailGroup :=
  {| senderName := senderName group;
     senderEmail := senderEmail group;
     emails := JsArray.sort (compareDates sortOrder) (emails group) |}.

(** [sortedData], lines 139-182; [None] is [null]. *)
Definition sortedData (organizedData : option (list OrganizedEmailGroup))
    (sortOrder : SortOrder) : option (list OrganizedEmailGroup) :=
  match organizedData with
  | None => None
  | Some data =>
      let groupsWithSortedEmails := map (withSortedEmails sortOrder) data in
      Some (JsArray.sort (compareGroups sortOrder) groupsWithSortedEmails)
  end.
End ViewModel.

(** The updater that [handleDeleteEmail] passes to [setOrganizedData],
    lines 119-137. [emailIndex] is a JavaScript number; positions are
    compared with it by [!==]. *)
Definition deleteFromGroup (senderEmail' : string) (emailIndex : Z)
    (group : OrganizedEmailGroup) : OrganizedEmailGroup :=
  if bool_decide (senderEmail group = senderEmail') then
    let updatedEmails :=
      JsArray.filter (λ _ index, negb (Z.of_nat index =? emailIndex))
                     (emails group) in
    {| senderName := senderName group;
       senderEmail := senderEmail group;
       emails := updatedEmails |}
  else group.

Definition handleDeleteEmail (senderEmail' : string) (emailIndex : Z)
    (currentData : option (list OrganizedEmailGroup))
    : option (list OrganizedEmailGroup) :=
  match currentData with
  | None => None
  | Some data =>
      let newData :=
        JsArray.filter (λ group _, (0 <? Z.of_nat (length (emails group))))
          (map (deleteFromGroup senderEmail' emailIndex) data) in
      Some newData
  end.

(** ** Extraction contract ([src/services/geminiService.ts]) *)

(** A parsed JSON value. An object is the list of its own properties in
    insertion order, with distinct keys; a number keeps its literal. *)
Inductive json :=
| JNull
| JBool (b : bool)
| JNumber (literal : string)
| JString (s : string)
| JArray (items : list json)
| JObject (fields : list (string * json)).

(** [obj[key]], [None] for [undefined]. *)
Fixpoint property (key : string) (fields : list (string * json)) : option json :=
  match fields with
  | [] => None
  | (k, v) :: rest => if String.eqb k key then Some v else property key rest
  end.

(** [Array.isArray]. *)
Definition isArray (v : json) : bool :=
  match v with
  | JArray _ => true
  | _ => false
  end.

(** The response schema, lines 17-56, as data. *)
Inductive Schema :=
| STRING (description : string)
| ARRAY (description : string) (items : Schema)
| OBJECT (properties : list (string * Schema)) (required : list string).

Definition emailSchema : Schema :=
  OBJECT
    [ ("subject", STRING "The subject line of the email.");
      ("date", STRING "The date the email was sent, in ISO 8601 format (e.g., '2024-07-30T10:00:00Z').");
      ("summary", STRING "A concise, one-paragraph summary of the email body.") ]
    [ "subject"; "date"; "summary" ].

Definition groupSchema : Schema :=
  OBJECT
    [ ("senderName", STRING "The name of the sender (e.g., 'John Doe').");
      ("senderEmail", STRING "The email address of the sender (e.g., 'john.doe@example.com').");
      ("emails", ARRAY "A list of emails from this sender." emailSchema) ]
    [ "senderName"; "senderEmail"; "emails" ].

Definition schema : Schema :=
  ARRAY "A list of email groups, where each group belongs to a unique sender."
        groupSchema.

(** What it is for a value to honour a schema: the type matches, every
    required property is present, and every declared property that is
    present honours its own schema. *)
Fixpoint conforms (s : Schema) (v : json) {struct s} : bool :=
  match s with
  | STRING _ =>
      match v with
      | JString _ => true
      | _ => false
      end
  | ARRAY _ items =>
      match v with
      | JArray vs => forallb (conforms items) vs
      | _ => false
      end
  | OBJECT properties required =>
      match v with
      | JObject fields =>
          forallb (λ key, match property key fields with
                          | Some _ => true
                          | None => false
                          end) required
          && (fix each (ps : list (string * Schema)) : bool :=
                match ps with
                | [] => true
                | (key, sub) :: rest =>
                    match property key fields with
                    | Some v' => conforms sub v'
                    | None => true
                    end && each rest
                end) properties
      | _ => false
      end
  end.

(** The typed view that the cast [as OrganizedEmailGroup[]] assumes. *)
Definition asString (v : option json) : option string :=
  match v with
  | Some (JString s) => Some s
  | _ => None
  end.

Definition asEmail (v : json) : option Email :=
  match v with
  | JObject fields =>
      s ← asString (property "subject" fields);
      d ← asString (property "date" fields);
      m ← asString (property "summary" fields);
      Some {| subject := s; date := d; summary := m |}
  | _ => None
  end.

Definition asGroup (v : json) : option OrganizedEmailGroup :=
  match v with
  | JObject fields =>
      n ← asString (property "senderName" fields);
      a ← asString (property "senderEmail" fields);
      es ← match property "emails" fields with
           | Some (JArray items) => mapM asEmail items
           | _ => None
           end;
      Some {| senderName := n; senderEmail := a; emails := es |}
  | _ => None
  end.

Definition asGroups (v : json) : option (list OrganizedEmailGroup) :=
  match v with
  | JArray items => mapM asGroup items
  | _ => None
  end.

(** *** Thrown values, the client and the request *)

(** What a [catch] clause can receive, as far as the handler of
    [organizeEmails] can tell values apart: an [Error] with its message;
    the [SyntaxError] of [JSON.parse] and the [TypeError] of calling a
    method of [undefined], whose messages are the engine's own and begin
    with other words than the service prefix; a value that is no [Error]. *)
Inductive Thrown :=
| Error (message : string)
| SyntaxError
| TypeError
| NotAnError.

Definition instanceofError (e : Thrown) : bool :=
  match e with
  | NotAnError => false
  | _ => true
  end.

(** [error.message.startsWith(p)] for a thrown [Error]. *)
Definition messageStartsWith (p : string) (e : Thrown) : bool :=
  match e with
  | Error message => String.prefix p message
  | _ => false
  end.

Record GoogleGenAI := { apiKey : string }.

Record Request := {
  model : string;
  contents : string;
  responseMimeType : string;
  responseSchema : Schema
}.

(** The world outside the module: [process.env.API_KEY] ([None] for
    [undefined]) and the answer of the remote model to a request, which
    either rejects with a thrown value or resolves to a response whose
    [text] is a string or [undefined]. *)
Record World := {
  API_KEY : option string;
  generateContent : GoogleGenAI → Request → Thrown + option string
}.

(** JavaScript truthiness of [process.env.API_KEY]. *)
Definition truthy (v : option string) : bool :=
  match v with
  | Some s => negb (String.eqb s "")
  | None => false
  end.

(** *** The effects of the module

    A computation reads and writes the module variable [ai] (line 4), may
    throw, and sends requests; the requests sent are logged in order. *)
Module Eff.
Definition M (A : Type) : Type :=
  option GoogleGenAI → (Thrown + A) * option GoogleGenAI * list Request.

Definition ret {A} (a : A) : M A := λ st, (inr a, st, []).

Definition throw {A} (e : Thrown) : M A := λ st, (inl e, st, []).

Definition bind {A B} (m : M A) (k : A → M B) : M B :=
  λ st,
    match m st with
    | (inl e, st', sent) => (inl e, st', sent)
    | (inr a, st', sent) =>
        match k a st' with
        | (r, st'', sent') => (r, st'', sent ++ sent')
        end
    end.

Definition tryCatch {A} (body : M A) (handler : Thrown → M A) : M A :=
  λ st,
    match body st with
    | (inl e, st', sent) =>
        match handler e st' with
        | (r, st'', sent') => (r, st'', sent ++ sent')
        end
    | (inr a, st', sent) => (inr a, st', sent)
    end.

Definition readAi : M (option GoogleGenAI) := λ st, (inr st, st, []).

Definition writeAi (client : GoogleGenAI) : M unit :=
  λ _, (inr tt, Some client, []).

(** [await client.models.generateContent(request)]. *)
Definition send (w : World) (client : GoogleGenAI) (request : Request)
    : M (option string) :=
  λ st, (generateContent w client request, st, [request]).
End Eff.

Notation "x ⇠ m ;; k" := (Eff.bind m (λ x, k))
  (at level 100, m at next level, right associativity, only parsing).

Definition configMessage : string :=
  "AI Service Error: The API_KEY environment variable is missing. Please ensure it's configured to enable AI features.".

Definition formatMessage : string :=
  "AI returned data in an unexpected format.".

Definition genericMessage : string :=
  "Failed to organize emails. The AI model might be unable to process the input. Please try again with clearer email content.".

(** [getAiClient], lines 6-15. *)
Definition getAiClient (w : World) : Eff.M GoogleGenAI :=
  ai ⇠ Eff.readAi ;;
  match ai with
  | Some client => Eff.ret client
  | None =>
      if negb (truthy (API_KEY w)) then Eff.throw (Error configMessage)
      else
        let client := {| apiKey := default "" (API_KEY w) |} in
        _ ⇠ Eff.writeAi client ;;
        Eff.ret client
  end.

Section Extraction.
(** [String.prototype.trim] and [JSON.parse] are the engine's; the parse
    is [None] where [JSON.parse] throws its [SyntaxError]. *)
Variable trim : string → string.
Variable JSON_parse : string → option json.

(** The template literal of lines 60-73. *)
Definition prompt (emailContent : string) : string :=
  "
        You are an expert email organization assistant.
        Analyze the following block of text which contains one or more emails.
        Extract the sender's name, sender's email address, subject, date, and a concise summary of the email body for each email.
        The date for each email must be in the ISO 8601 format (e.g., '2024-07-30T10:00:00Z').
        Group the results by the sender's email address.
        Provide the output in the structured JSON format defined by the provided schema.
        If you cannot find a piece of information, represent it as an empty string.

        Email Content:
        ---
        " +:+ emailContent +:+ "
        ---
    ".

Definition requestFor (emailContent : string) : Request :=
  {| model := "gemini-2.5-flash";
     contents := prompt emailContent;
     responseMimeType := "application/json";
     responseSchema := schema |}.

(** The [try] block, lines 76-94. *)
Definition attempt (w : World) (emailContent : string) : Eff.M json :=
  client ⇠ getAiClient w ;;
  text ⇠ Eff.send w client (requestFor emailContent) ;;
  jsonText ⇠ match text with
             | Some t => Eff.ret (trim t)
             | None => Eff.throw TypeError
             end ;;
  parsedJson ⇠ match JSON_parse jsonText with
               | Some v => Eff.ret v
               | None => Eff.throw SyntaxError
               end ;;
  if negb (isArray parsedJson) then Eff.throw (Error formatMessage)
  else Eff.ret parsedJson.

(** The [catch] clause, lines 95-104. *)
Definition handler (error : Thrown) : Eff.M json :=
  if instanceofError error && messageStartsWith "AI Service Error:" error
  then Eff.throw error
  else Eff.throw (Error genericMessage).

(** [organizeEmails], lines 59-105. *)
Definition organizeEmails (w : World) (emailContent : string) : Eff.M json :=
  Eff.tryCatch (attempt w emailContent) handler.

(** The states of the module variable [ai] that calls of
    [organizeEmails] can leave behind in a world [w], starting from the
    [null] of line 4. *)
Inductive reachable (w : World) : option GoogleGenAI → Prop :=
| reachable_init : reachable w None
| reachable_call st emailContent :
    reachable w st →
    reachable w (organizeEmails w emailContent st).1.2.
End Extraction.

(** ** Readings of the extraction claims *)

(** The client a call works with: the cached one, or a fresh one when the
    credential is there. *)
Definition clientFor (w : World) (st : option GoogleGenAI) : option GoogleGenAI :=
  match st with
  | Some client => Some client
  | None =>
      if truthy (API_KEY w) then Some {| apiKey := default "" (API_KEY w) |}
      else None
  end.


(** ** Readings of the sorting claims *)

(** The conditions under which the two orders are reverses of each other,
    as checks on the data. *)
Definition hasValidDate (getTime : string → option Z) (e : Email) : bool :=
  bool_decide (is_Some (getTime (date e))).

Definition allDatesValid (getTime : string → option Z)
    (data : list OrganizedEmailGroup) : bool :=
  forallb (λ g, forallb (hasValidDate getTime) (emails g)) data.

(** No two emails of the group parse to the same time. *)
Definition distinctTimes (getTime : string → option Z)
    (g : OrganizedEmailGroup) : bool :=
  bool_decide (NoDup (map (λ e, getTime (date e)) (emails g))).

Definition earlier (getTime : string → option Z) (a b : Email) : bool :=
  match getTime (date a), getTime (date b) with
  | Some ta, Some tb => ta <? tb
  | _, _ => false
  end.

(** Every email of [g] is earlier than every email of [h]. *)
Definition entirelyBefore (getTime : string → option Z)
    (g h : OrganizedEmailGroup) : bool :=
  forallb (λ a, forallb (earlier getTime a) (emails h)) (emails g).

Fixpoint pairwise {A} (p : A → A → bool) (l : list A) : bool :=
  match l with
  | [] => true
  | x :: rest => forallb (p x) rest && pairwise p rest
  end.

(** Of any two groups, one lies entirely before the other in time. *)
Definition apart (getTime : string → option Z)
    (data : list OrganizedEmailGroup) : bool :=
  pairwise (λ g h, entirelyBefore getTime g h || entirelyBefore getTime h g) data.

Definition hasEmails (g : OrganizedEmailGroup) : bool :=
  negb (bool_decide (emails g = [])).

Definition reverseEmails (g : OrganizedEmailGroup) : OrganizedEmailGroup :=
  {| senderName := senderName g;
     senderEmail := senderEmail g;
     emails := reverse (emails g) |}.

(** What ECMAScript asks of [arr.sort(comparefn)] for a consistent
    comparator: the result is a permutation of the array, it is in
    ascending order, and elements that compare as equal keep the order
    they had. [tiedWith cmp x] picks the elements that compare as equal
    to [x]. *)
Definition tiedWith {A} (cmp : A → A → Z) (x y : A) : bool :=
  (cmp x y <=? 0) && (cmp y x <=? 0).

Definition stableSortOf {A} (cmp : A → A → Z) (arr sorted : list A) : Prop :=
  sorted ≡ₚ arr ∧
  StronglySorted (λ x y, cmp x y ≤ 0) sorted ∧
  ∀ x, List.filter (tiedWith cmp x) sorted = List.filter (tiedWith cmp x) arr.

(** Two comparators are opposed on a pair when one puts the pair in one
    strict order and the other in the other. *)
Definition opposed {A} (cmp cmp' : A → A → Z) (x y : A) : Prop :=
  (cmp x y < 0 ∧ 0 < cmp' x y) ∨ (0 < cmp x y ∧ cmp' x y < 0).

(** ** A reference engine for the examples

    The theorems below hold for every [getTime], [trim] and [JSON_parse].
    The examples need concrete ones: this module gives the three functions
    on the inputs the examples use, date-only ISO strings, ASCII white
    space and JSON texts without escapes, fractions and exponents, where
    they agree with what a JavaScript engine computes. *)
Module Engine.
Definition code (c : ascii) : Z := Z.of_N (N_of_ascii c).

Definition digit (c : ascii) : option Z :=
  if (48 <=? code c) && (code c <=? 57) then Some (code c - 48) else None.

Fixpoint number (cs : list ascii) (acc : Z) : option Z :=
  match cs with
  | [] => Some acc
  | c :: rest => d ← digit c; number rest (10 * acc + d)
  end.

(** Days from 1970-01-01 to a date of the proleptic Gregorian calendar. *)
Definition daysFromCivil (y m d : Z) : Z :=
  let y' := if m <=? 2 then y - 1 else y in
  let era := y' / 400 in
  let yoe := y' - era * 400 in
  let mp := (m + 9) mod 12 in
  let doy := (153 * mp + 2) / 5 + d - 1 in
  let doe := yoe * 365 + yoe / 4 - yoe / 100 + doy in
  era * 146097 + doe - 719468.

Definition daysInMonth (y m : Z) : Z :=
  if m =? 2 then
    if ((y mod 4 =? 0) && negb (y mod 100 =? 0)) || (y mod 400 =? 0)
    then 29 else 28
  else if (m =? 4) || (m =? 6) || (m =? 9) || (m =? 11) then 30
  else 31.

(** [new Date(s).getTime()] for [s] of the form YYYY-MM-DD, which
    JavaScript reads as midnight UTC; any other string counts as an
    invalid date here. *)
Definition getTime (s : string) : option Z :=
  match String.list_ascii_of_string s with
  | [y1; y2; y3; y4; h1; m1; m2; h2; d1; d2] =>
      if (code h1 =? 45) && (code h2 =? 45) then
        y ← number [y1; y2; y3; y4] 0;
        m ← number [m1; m2] 0;
        d ← number [d1; d2] 0;
        if (1 <=? m) && (m <=? 12) && (1 <=? d) && (d <=? daysInMonth y m)
        then Some (daysFromCivil y m d * 86400000)
        else None
      else None
  | _ => None
  end.

Definition isSpace (c : ascii) : bool :=
  ((9 <=? code c) && (code c <=? 13)) || (code c =? 32).

Fixpoint dropSpaces (cs : list ascii) : list ascii :=
  match cs with
  | [] => []
  | c :: rest => if isSpace c then dropSpaces rest else cs
  end.

Definition trim (s : string) : string :=
  String.string_of_list_ascii
    (rev (dropSpaces (rev (dropSpaces (String.list_ascii_of_string s))))).

(** JSON white space: space, tab, line feed, carriage return. *)
Fixpoint skip (cs : list ascii) : list ascii :=
  match cs with
  | [] => []
  | c :: rest =>
      if (code c =? 32) || (code c =? 9) || (code c =? 10) || (code c =? 13)
      then skip rest else cs
  end.

(** The characters of a string literal after its opening quote. *)
Fixpoint readString (cs : list ascii) (acc : list ascii)
    : option (string * list ascii) :=
  match cs with
  | [] => None
  | c :: rest =>
      if code c =? 34 then Some (String.string_of_list_ascii (rev acc), rest)
      else if (code c =? 92) || (code c <? 32) then None
      else readString rest (c :: acc)
  end.

Fixpoint readDigits (cs : list ascii) (acc : list ascii)
    : list ascii * list ascii :=
  match cs with
  | c :: rest =>
      if (48 <=? code c) && (code c <=? 57) then readDigits rest (c :: acc)
      else (rev acc, cs)
  | [] => (rev acc, [])
  end.

Definition readWord (word : string) (v : json) (cs : list ascii)
    : option (json * list ascii) :=
  let n := String.length word in
  if bool_decide (take n cs = String.list_ascii_of_string word)
  then Some (v, drop n cs) else None.

Fixpoint setField (key : string) (v : json) (fields : list (string * json))
    : list (string * json) :=
  match fields with
  | [] => [(key, v)]
  | (k, v') :: rest =>
      if String.eqb k key then (k, v) :: rest
      else (k, v') :: setField key v rest
  end.

Fixpoint readValue (fuel : nat) (cs : list ascii)
    : option (json * list ascii) :=
  match fuel with
  | O => None
  | S fuel' =>
      match skip cs with
      | [] => None
      | c :: rest =>
          if code c =? 91 then
            match skip rest with
            | c' :: rest' =>
                if code c' =? 93 then Some (JArray [], rest')
                else readItems fuel' rest []
            | [] => None
            end
          else if code c =? 123 then
            match skip rest with
            | c' :: rest' =>
                if code c' =? 125 then Some (JObject [], rest')
                else readFields fuel' rest []
            | [] => None
            end
          else if code c =? 34 then
            '(s, rest') ← readString rest []; Some (JString s, rest')
          else if code c =? 116 then readWord "true" (JBool true) (c :: rest)
          else if code c =? 102 then readWord "false" (JBool false) (c :: rest)
          else if code c =? 110 then readWord "null" JNull (c :: rest)
          else
            let body := if code c =? 45 then rest else c :: rest in
            match readDigits body [] with
            | ([], _) => None
            | (ds, rest') =>
                if (1 <? Z.of_nat (length ds)) && bool_decide (ds !! 0%nat = Some "0"%char)
                then None
                else
                  let sign := if code c =? 45 then [c] else [] in
                  Some (JNumber (String.string_of_list_ascii (sign ++ ds)), rest')
            end
      end
  end
with readItems (fuel : nat) (cs : list ascii) (acc : list json)
    : option (json * list ascii) :=
  match fuel with
  | O => None
  | S fuel' =>
      '(v, rest) ← readValue fuel' cs;
      match skip rest with
      | c :: rest' =>
          if code c =? 44 then readItems fuel' rest' (v :: acc)
          else if code c =? 93 then Some (JArray (rev (v :: acc)), rest')
          else None
      | [] => None
      end
  end
with readFields (fuel : nat) (cs : list ascii) (acc : list (string * json))
    : option (json * list ascii) :=
  match fuel with
  | O => None
  | S fuel' =>
      match skip cs with
      | q :: rest =>
          if code q =? 34 then
            '(key, rest1) ← readString rest [];
            match skip rest1 with
            | colon :: rest2 =>
                if code colon =? 58 then
                  '(v, rest3) ← readValue fuel' rest2;
                  match skip rest3 with
                  | c :: rest4 =>
                      if code c =? 44
                      then readFields fuel' rest4 (setField key v acc)
                      else if code c =? 125
                      then Some (JObject (setField key v acc), rest4)
                      else None
                  | [] => None
                  end
                else None
            | [] => None
            end
          else None
      | [] => None
      end
  end.

Definition JSON_parse (s : string) : option json :=
  let cs := String.list_ascii_of_string s in
  '(v, rest) ← readValue (S (length cs)) cs;
  match skip rest with
  | [] => Some v
  | _ => None
  end.

Definition quoted (s : string) : string :=
  String (ascii_of_nat 34) s +:+ String (ascii_of_nat 34) EmptyString.
End Engine.

(** ** Sample data *)

Module Sample.
Definition mail (subject' date' : string) : Email :=
  {| subject := subject'; date := date'; summary := "" |}.

Definition july1 : Email := mail "Kick-off" "2024-07-01".
Definition july10 : Email := mail "Invoice" "2024-07-10".
Definition july15 : Email := mail "Follow-up" "2024-07-15".
Definition july1_again : Email := mail "Reminder" "2024-07-01".
Definition undated : Email := mail "Draft" "".

Definition from (address : string) (emails' : list Email)
    : OrganizedEmailGroup :=
  {| senderName := ""; senderEmail := address; emails := emails' |}.

(** Two emails from a@x.com of 1 and 15 July, one from b@y.com of
    10 July. *)
Definition scenario : list OrganizedEmailGroup :=
  [ from "a@x.com" [july1; july15]; from "b@y.com" [july10] ].

(** Two emails of the same day in one group. *)
Definition tied : list OrganizedEmailGroup :=
  [ from "a@x.com" [july1; july1_again] ].

(** The group of a@x.com lies entirely before the group of b@y.com. *)
Definition consecutive : list OrganizedEmailGroup :=
  [ from "a@x.com" [july1; july10]; from "b@y.com" [july15] ].

Definition withUndated : list OrganizedEmailGroup :=
  [ from "a@x.com" [undated; july1] ].

(** A group that the model returned without emails. *)
Definition withEmptyGroup : list OrganizedEmailGroup :=
  [ from "a@x.com" [] ].

Definition single : list OrganizedEmailGroup :=
  [ from "a@x.com" [july1] ].

(** Worlds: one in which the model answers with a fixed text, one in
    which the call is rejected with a fixed value, one without
    credential. *)
Definition answering (text : string) : World :=
  {| API_KEY := Some "key";
     generateContent := λ _ _, inr (Some text) |}.

Definition rejecting (e : Thrown) : World :=
  {| API_KEY := Some "key";
     generateContent := λ _ _, inl e |}.

Definition unconfigured : World :=
  {| API_KEY := None;
     generateContent := λ _ _, inr (Some "[]") |}.

Definition client : GoogleGenAI := {| apiKey := "key" |}.
End Sample.

(** ** The organize handler ([src/App.tsx], lines 99-117) *)

(** The state the handler writes: the text area, the result as
    [organizeEmails] returned it (the cast to [OrganizedEmailGroup[]] is
    unchecked), the loading flag and the error line. *)
Record AppState := {
  rawEmails : string;
  organizedData : option json;
  isLoading : bool;
  error : option string
}.

(** A call of one of the state setters. *)
Inductive Update :=
| SetError (e : option string)
| SetIsLoading (b : bool)
| SetOrganizedData (d : option json).

Definition applyUpdate (s : AppState) (u : Update) : AppState :=
  match u with
  | SetError e =>
      {| rawEmails := rawEmails s; organizedData := organizedData s;
         isLoading := isLoading s; error := e |}
  | SetIsLoading b =>
      {| rawEmails := rawEmails s; organizedData := organizedData s;
         isLoading := b; error := error s |}
  | SetOrganizedData d =>
      {| rawEmails := rawEmails s; organizedData := d;
         isLoading := isLoading s; error := error s |}
  end.

Definition applyUpdates (s : AppState) (us : list Update) : AppState :=
  foldl applyUpdate s us.

Definition validationMessage : string :=
  "Please paste some email content first.".

Definition unknownMessage : string :=
  "An unknown error occurred. Please check the console.".

Section OrganizeClick.
Variable trim : string → string.
Variable JSON_parse : string → option json.
(** [err.message] of the engine's own errors. *)
Variable syntaxErrorMessage : string.
Variable typeErrorMessage : string.

(** [err instanceof Error ? err.message : "An unknown error ..."]. *)
Definition shownMessage (err : Thrown) : string :=
  match err with
  | Error message => message
  | SyntaxError => syntaxErrorMessage
  | TypeError => typeErrorMessage
  | NotAnError => unknownMessage
  end.

(** [handleOrganizeClick]: the setter calls it makes, in order. The empty
    string is the only falsy string. *)
Definition handleOrganizeClick (w : World) (s : AppState) : Eff.M (list Update) :=
  if String.eqb (trim (rawEmails s)) "" then
    Eff.ret [SetError (Some validationMessage)]
  else
    settled ⇠ Eff.tryCatch
      (result ⇠ organizeEmails trim JSON_parse w (rawEmails s) ;;
       Eff.ret [SetOrganizedData (Some result)])
      (λ err, Eff.ret [SetError (Some (shownMessage err))]) ;;
    Eff.ret ([SetIsLoading true; SetError None; SetOrganizedData None]
               ++ settled ++ [SetIsLoading false]).
End OrganizeClick.

(** ** The results panel ([ResultsDisplay], [src/components/EmailGroup.tsx],
    lines 145-194)

    Which of its five returns the component takes. *)
Inductive View :=
| LoadingSkeleton
| ErrorPanel (message : string)
| Placeholder
| NoEmailsFound
| GroupList (groups : list OrganizedEmailGroup).

Definition ResultsDisplay (isLoading' : bool) (error' : option string)
    (data : option (list OrganizedEmailGroup)) : View :=
  if isLoading' then LoadingSkeleton
  else if truthy error' then ErrorPanel (default "" error')
  else
    match data with
    | None => Placeholder
    | Some groups =>
        if (length groups =? 0)%nat then NoEmailsFound else GroupList groups
    end.

(** ** The identity token ([decodeJwtResponse], [src/App.tsx], lines 26-38) *)

Module Jwt.
(** [s.split(sep)] for a separator of one character. *)
Fixpoint split (sep : ascii) (s : string) : list string :=
  match s with
  | EmptyString => [EmptyString]
  | String c rest =>
      match split sep rest with
      | [] => [String c EmptyString]
      | first :: others =>
          if Ascii.eqb c sep then EmptyString :: first :: others
          else String c first :: others
      end
  end.

(** [s.replace(/c/g, d)] for characters [c] and [d]. *)
Fixpoint replaceAll (c d : ascii) (s : string) : string :=
  match s with
  | EmptyString => EmptyString
  | String x rest =>
      String (if Ascii.eqb x c then d else x) (replaceAll c d rest)
  end.

(** [n.toString(16)] for a character code below 256. *)
Definition hexDigit (n : N) : ascii :=
  if (n <? 10)%N then ascii_of_N (48 + n) else ascii_of_N (87 + n).

Definition toString16 (n : N) : string :=
  if (n <? 16)%N then String (hexDigit n) EmptyString
  else String (hexDigit (n / 16)) (String (hexDigit (n mod 16)) EmptyString).

(** [s.slice(-2)]. *)
Definition slice_last2 (s : string) : string :=
  String.substring (String.length s - 2) 2 s.

(** ['%' + ('00' + c.charCodeAt(0).toString(16)).slice(-2)]. *)
Definition escapeChar (c : ascii) : string :=
  String "%" (slice_last2 ("00" +:+ toString16 (N_of_ascii c))).

(** [binary.split('').map(escapeChar).join('')]. *)
Fixpoint escapeAll (binary : string) : string :=
  match binary with
  | EmptyString => EmptyString
  | String c rest => escapeChar c +:+ escapeAll rest
  end.

Definition invalidMessage : string := "Invalid JWT token received".

Section Decode.
(** [atob], [decodeURIComponent] and [JSON.parse] are the engine's; each
    is [None] where the builtin throws. *)
Variable atob : string → option string.
Variable decodeURIComponent : string → option string.
Variable JSON_parse : string → option json.

(** The [try] block; [None] when something in it throws. The second
    element of the split is [undefined] when there is none, and
    [undefined.replace] throws. *)
Definition payload (token : string) : option json :=
  base64Url ← split "." token !! 1%nat;
  let base64 := replaceAll "_" "/" (replaceAll "-" "+" base64Url) in
  binary ← atob base64;
  jsonPayload ← decodeURIComponent (escapeAll binary);
  JSON_parse jsonPayload.

Definition decodeJwtResponse (token : string) : Thrown + json :=
  match payload token with
  | Some profile => inr profile
  | None => inl (Error invalidMessage)
  end.
End Decode.
End Jwt.

(** ** Counting for the deletion properties *)

(** The number of emails in the data. *)
Definition emailCount (data : list OrganizedEmailGroup) : nat :=
  sum_list (map (λ g, length (emails g)) data).


(** ** Readings of the token properties *)

Definition hexValue (c : ascii) : option N :=
  let n := N_of_ascii c in
  if ((48 <=? n) && (n <=? 57))%N then Some (n - 48)%N
  else if ((97 <=? n) && (n <=? 102))%N then Some (n - 87)%N
  else None.

(** Reading back what [Jwt.escapeAll] writes: each ['%'] and two
    hexadecimal digits give the character with that code. *)
Fixpoint unescapeAll (s : string) : option string :=
  match s with
  | EmptyString => Some EmptyString
  | String p (String h1 (String h2 rest)) =>
      if Ascii.eqb p "%" then
        hi ← hexValue h1;
        lo ← hexValue h2;
        tail ← unescapeAll rest;
        Some (String (ascii_of_N (16 * hi + lo)) tail)
      else None
  | _ => None
  end.

(** ** Reference builtins for the token examples

    [atob] on base64 text without white space, and [decodeURIComponent]
    on the escapes of ASCII characters, where they agree with what a
    browser computes. *)
Module Codec.
Definition sextet (c : ascii) : option N :=
  let n := N_of_ascii c in
  if ((65 <=? n) && (n <=? 90))%N then Some (n - 65)%N
  else if ((97 <=? n) && (n <=? 122))%N then Some (n - 71)%N
  else if ((48 <=? n) && (n <=? 57))%N then Some (n + 4)%N
  else if (n =? 43)%N then Some 62%N
  else if (n =? 47)%N then Some 63%N
  else None.

Fixpoint octets (vs : list N) : option (list ascii) :=
  match vs with
  | [] => Some []
  | [_] => None
  | [a; b] => Some [ascii_of_N (4 * a + b / 16)]
  | [a; b; c] =>
      Some [ascii_of_N (4 * a + b / 16);
            ascii_of_N (16 * (b mod 16) + c / 4)]
  | a :: b :: c :: d :: rest =>
      more ← octets rest;
      Some (ascii_of_N (4 * a + b / 16)
            :: ascii_of_N (16 * (b mod 16) + c / 4)
            :: ascii_of_N (64 * (c mod 4) + d) :: more)
  end.

Definition unpad (cs : list ascii) : list ascii :=
  if (length cs mod 4 =? 0)%nat then
    match reverse cs with
    | p :: q :: rest =>
        if Ascii.eqb p "=" then
          if Ascii.eqb q "=" then reverse rest else reverse (q :: rest)
        else cs
    | _ => cs
    end
  else cs.

Definition atob (s : string) : option string :=
  vs ← mapM sextet (unpad (String.list_ascii_of_string s));
  bytes ← octets vs;
  Some (String.string_of_list_ascii bytes).

Definition decodeURIComponent (s : string) : option string :=
  decoded ← unescapeAll s;
  if forallb (λ c, (N_of_ascii c <? 128)%N) (String.list_ascii_of_string decoded)
  then Some decoded else None.
End Codec.

(** ** Sample states and tokens *)

Module SampleApp.

Definition showing (text : string) (result : json) : AppState :=
  {| rawEmails := text; organizedData := Some result;
     isLoading := false; error := None |}.

(** A world in which the response of the model has no text. *)
Definition silent : World :=
  {| API_KEY := Some "key";
     generateContent := λ _ _, inr None |}.

(** The payload segment is the base64url text of a JSON object with the
    one member a: 1. *)
Definition token : string := "header.eyJhIjoxfQ.signature".
Definition forged : string := "other.eyJhIjoxfQ.forged".
End SampleApp.

(** * Theorems *)

(** ** The reference engine on sample inputs *)

Example engine_getTime_2024_07_01 :
  Engine.getTime "2024-07-01" = Some 1719792000000.
Proof. reflexivity. Qed.

Example engine_getTime_invalid : Engine.getTime "" = None.
Proof. reflexivity. Qed.

Example engine_trim : Engine.trim "  [ 1 ]
" = "[ 1 ]".
Proof. reflexivity. Qed.

Example engine_parse_object :
  Engine.JSON_parse ("[{" +:+ Engine.quoted "date" +:+ ": " +:+ Engine.quoted "2024-07-01"
                     +:+ ", " +:+ Engine.quoted "n" +:+ ": [-12, true, null]}]")
  = Some (JArray [JObject [("date", JString "2024-07-01");
                           ("n", JArray [JNumber "-12"; JBool true; JNull])]]).
Proof. vm_compute. reflexivity. Qed.

Example engine_parse_garbage : Engine.JSON_parse "Sorry, I cannot help." = None.
Proof. reflexivity. Qed.

(** ** Facts about the array methods *)

Section FilterFacts.
Context {A : Type}.
Implicit Types (arr : list A) (k : nat).

Lemma filter_from_ignoring_index (p : A → bool) k arr :
  JsArray.filter_from (λ x _, p x) k arr = List.filter p arr.
Proof.
  revert k. induction arr as [|x rest IH]; intros k; simpl; [done|].
  rewrite IH. done.
Qed.

Lemma filter_ignoring_index (p : A → bool) arr :
  JsArray.filter (λ x _, p x) arr = List.filter p arr.
Proof. apply filter_from_ignoring_index. Qed.

(** Dropping the position [n] of the whole array while standing at
    position [k]: nothing is dropped when [n] lies behind [k] or beyond
    the end. *)
Lemma filter_from_miss (n : Z) k arr :
  n < Z.of_nat k ∨ Z.of_nat (k + length arr) ≤ n →
  JsArray.filter_from (λ _ index, negb (Z.of_nat index =? n)) k arr = arr.
Proof.
  revert k. induction arr as [|x rest IH]; intros k Hk; simpl in *; [done|].
  destruct (Z.eqb_spec (Z.of_nat k) n) as [Heq|_]; [lia|]. simpl.
  rewrite IH by lia. done.
Qed.

Lemma filter_from_ahead (i : nat) k arr :
  JsArray.filter_from (λ _ index, negb (Z.of_nat index =? Z.of_nat (k + i))) k arr
  = delete i arr.
Proof.
  revert i k. induction arr as [|x rest IH]; intros i k; simpl.
  { by destruct i. }
  destruct (Z.eqb_spec (Z.of_nat k) (Z.of_nat (k + i))) as [Heq|Hne]; simpl.
  - assert (i = 0%nat) as -> by lia. simpl.
    apply filter_from_miss. lia.
  - destruct i as [|i]; [exfalso; apply Hne; f_equal; lia|]. simpl.
    replace (k + S i)%nat with (S k + i)%nat by lia.
    by rewrite IH.
Qed.

(** Filtering out a position that exists deletes the element there. *)
Lemma filter_out_index (i : nat) arr :
  JsArray.filter (λ _ index, negb (Z.of_nat index =? Z.of_nat i)) arr
  = delete i arr.
Proof. apply (filter_from_ahead i 0). Qed.

(** Filtering out a position beyond the end, or a negative one, keeps
    every element. *)
Lemma filter_out_of_range (n : Z) arr :
  n < 0 ∨ Z.of_nat (length arr) ≤ n →
  JsArray.filter (λ _ index, negb (Z.of_nat index =? n)) arr = arr.
Proof.
  intros Hn. apply filter_from_miss. simpl. lia.
Qed.
End FilterFacts.

Section SortFacts.
Context {A : Type}.
Implicit Types (x y : A) (l : list A).

Lemma insert_perm (cmp : A → A → Z) x l : JsArray.insert cmp x l ≡ₚ x :: l.
Proof.
  induction l as [|y rest IH]; simpl; [done|].
  destruct (0 <? cmp x y); [|done].
  rewrite IH. apply Permutation_swap.
Qed.

Lemma sort_perm (cmp : A → A → Z) l : JsArray.sort cmp l ≡ₚ l.
Proof.
  induction l as [|x rest IH]; simpl; [done|].
  by rewrite insert_perm, IH.
Qed.

Lemma sort_length (cmp : A → A → Z) l :
  length (JsArray.sort cmp l) = length l.
Proof. by rewrite sort_perm. Qed.

(** Sorting the images under [f] is sorting with the comparator read
    through [f]. *)
Lemma insert_map {B} (f : B → A) (cmp : A → A → Z) (b : B) (bs : list B) :
  JsArray.insert cmp (f b) (map f bs)
  = map f (JsArray.insert (λ u v, cmp (f u) (f v)) b bs).
Proof.
  induction bs as [|c rest IH]; simpl; [done|].
  destruct (0 <? cmp (f b) (f c)); simpl; [|done].
  by rewrite IH.
Qed.

Lemma sort_map {B} (f : B → A) (cmp : A → A → Z) (bs : list B) :
  JsArray.sort cmp (map f bs)
  = map f (JsArray.sort (λ u v, cmp (f u) (f v)) bs).
Proof.
  induction bs as [|b rest IH]; simpl; [done|].
  by rewrite IH, insert_map.
Qed.

(** The sort is stable: elements none of which must come after another
    keep the order they had. *)
Lemma insert_stable (cmp : A → A → Z) (p : A → bool) x l :
  (p x = true → ∀ y, y ∈ l → p y = true → cmp x y ≤ 0) →
  List.filter p (JsArray.insert cmp x l) = List.filter p (x :: l).
Proof.
  induction l as [|y rest IH]; intros Hle; simpl; [done|].
  destruct (Z.ltb_spec 0 (cmp x y)) as [Hgt|_]; [|done].
  simpl. rewrite IH by (intros; apply Hle; [done|by right|done]).
  simpl. destruct (p x) eqn:Hpx, (p y) eqn:Hpy; try done.
  specialize (Hle eq_refl y (list_elem_of_here _ _) Hpy). lia.
Qed.

Lemma sort_stable (cmp : A → A → Z) (p : A → bool) l :
  (∀ x y, x ∈ l → y ∈ l → p x = true → p y = true → cmp x y ≤ 0) →
  List.filter p (JsArray.sort cmp l) = List.filter p l.
Proof.
  induction l as [|x rest IH]; intros Hle; simpl; [done|].
  rewrite insert_stable.
  - simpl. rewrite IH; [done|].
    intros; apply Hle; try done; by right.
  - intros Hpx y Hy Hpy. apply Hle; try done; [by left|].
    right. by rewrite <- (sort_perm cmp rest).
Qed.

(** For a comparator that is a total preorder the result is sorted. *)
Section Consistent.
Variable cmp : A → A → Z.
Hypothesis cmp_trans : ∀ x y z, cmp x y ≤ 0 → cmp y z ≤ 0 → cmp x z ≤ 0.
Hypothesis cmp_total : ∀ x y, 0 < cmp x y → cmp y x ≤ 0.

Lemma insert_sorted x l :
  StronglySorted (λ u v, cmp u v ≤ 0) l →
  StronglySorted (λ u v, cmp u v ≤ 0) (JsArray.insert cmp x l).
Proof.
  induction l as [|y rest IH]; intros Hs; simpl.
  { repeat constructor. }
  apply StronglySorted_cons in Hs as [Hy Hrest].
  destruct (Z.ltb_spec 0 (cmp x y)) as [Hgt|Hle].
  - apply StronglySorted_cons. split; [|by apply IH].
    rewrite insert_perm. constructor; [by apply cmp_total|done].
  - apply StronglySorted_cons. split.
    + constructor; [done|].
      eapply Forall_impl; [exact Hy|]. intros z Hz. by eapply cmp_trans.
    + by apply StronglySorted_cons.
Qed.

Lemma sort_sorted l :
  StronglySorted (λ u v, cmp u v ≤ 0) (JsArray.sort cmp l).
Proof.
  induction l as [|x rest IH]; simpl; [constructor|].
  by apply insert_sorted.
Qed.

Lemma cmp_refl x : cmp x x ≤ 0.
Proof. destruct (Z.ltb_spec 0 (cmp x x)) as [Hgt|]; [by apply cmp_total|done]. Qed.

(** The model computes a stable sort of the array. *)
Lemma sort_stableSortOf l : stableSortOf cmp l (JsArray.sort cmp l).
Proof.
  split; [apply sort_perm|]. split; [apply sort_sorted|].
  intros x. apply sort_stable. intros y z _ _ Hy Hz.
  unfold tiedWith in Hy, Hz.
  apply andb_true_iff in Hy as [_ Hy]. apply andb_true_iff in Hz as [Hz _].
  apply (cmp_trans y x z); lia.
Qed.

(** There is only one: two sorted permutations that keep the order of the
    elements that compare as equal are the same list. *)
Lemma stable_sorted_unique l1 l2 :
  l1 ≡ₚ l2 →
  StronglySorted (λ u v, cmp u v ≤ 0) l1 →
  StronglySorted (λ u v, cmp u v ≤ 0) l2 →
  (∀ x, List.filter (tiedWith cmp x) l1 = List.filter (tiedWith cmp x) l2) →
  l1 = l2.
Proof.
  revert l2. induction l1 as [|x1 t1 IH]; intros [|x2 t2] Hperm Hs1 Hs2 Hf.
  - done.
  - by apply Permutation_nil_cons in Hperm.
  - symmetry in Hperm. by apply Permutation_nil_cons in Hperm.
  - apply StronglySorted_cons in Hs1 as [Hx1 Hs1].
    apply StronglySorted_cons in Hs2 as [Hx2 Hs2].
    rewrite Forall_forall in Hx1, Hx2.
    assert (cmp x1 x2 ≤ 0) as H12.
    { assert (x2 ∈ x1 :: t1) as Hin by (rewrite Hperm; by left).
      apply elem_of_cons in Hin as [->|Hin]; [apply cmp_refl|by apply Hx1]. }
    assert (cmp x2 x1 ≤ 0) as H21.
    { assert (x1 ∈ x2 :: t2) as Hin by (rewrite <- Hperm; by left).
      apply elem_of_cons in Hin as [->|Hin]; [apply cmp_refl|by apply Hx2]. }
    assert (x1 = x2) as <-.
    { specialize (Hf x1). simpl in Hf.
      assert (tiedWith cmp x1 x1 = true) as Hrefl.
      { unfold tiedWith. pose proof (cmp_refl x1). apply andb_true_iff. lia. }
      assert (tiedWith cmp x1 x2 = true) as Htied.
      { unfold tiedWith. apply andb_true_iff. lia. }
      rewrite Hrefl, Htied in Hf. congruence. }
    f_equal. apply IH; [by apply Permutation_cons_inv in Hperm|done..|].
    intros x. specialize (Hf x). simpl in Hf.
    destruct (tiedWith cmp x x1); congruence.
Qed.

(** So whatever stable algorithm the engine runs, it returns what the
    model returns. *)
Lemma stableSortOf_unique l sorted :
  stableSortOf cmp l sorted → sorted = JsArray.sort cmp l.
Proof.
  intros (Hperm & Hsorted & Hstable).
  destruct (sort_stableSortOf l) as (Hperm' & Hsorted' & Hstable').
  apply stable_sorted_unique; [by rewrite Hperm, Hperm'|done..|].
  intros x. by rewrite Hstable, Hstable'.
Qed.
End Consistent.

Lemma StronglySorted_lookup (R : A → A → Prop) l (i j : nat) x y :
  StronglySorted R l → l !! i = Some x → l !! j = Some y → (i < j)%nat →
  R x y.
Proof.
  intros Hs. revert i j. induction Hs as [|z rest Hs IH Hz]; intros i j Hi Hj Hlt.
  { done. }
  destruct i as [|i], j as [|j]; try lia; simpl in *.
  - simplify_eq. rewrite Forall_forall in Hz. apply Hz.
    by eapply list_elem_of_lookup_2.
  - eapply IH; eauto. lia.
Qed.
End SortFacts.

(** ** The sort of [sortedData] *)

Section SortedData.
Variable getTime : string → option Z.

Lemma compareDates_trans o a b c :
  compareDates getTime o a b ≤ 0 → compareDates getTime o b c ≤ 0 →
  compareDates getTime o a c ≤ 0.
Proof.
  unfold compareDates.
  destruct (getTime (date a)), (getTime (date b)), (getTime (date c)), o; lia.
Qed.

Lemma compareDates_total o a b :
  0 < compareDates getTime o a b → compareDates getTime o b a ≤ 0.
Proof.
  unfold compareDates.
  destruct (getTime (date a)), (getTime (date b)), o; lia.
Qed.

Lemma compareGroups_trans o g h k :
  compareGroups getTime o g h ≤ 0 → compareGroups getTime o h k ≤ 0 →
  compareGroups getTime o g k ≤ 0.
Proof.
  unfold compareGroups.
  destruct (emails g !! 0%nat), (emails h !! 0%nat), (emails k !! 0%nat);
    try lia.
  apply compareDates_trans.
Qed.

Lemma compareGroups_total o g h :
  0 < compareGroups getTime o g h → compareGroups getTime o h g ≤ 0.
Proof.
  unfold compareGroups.
  destruct (emails g !! 0%nat), (emails h !! 0%nat); try lia.
  apply compareDates_total.
Qed.

Lemma emails_sorted o group :
  StronglySorted (λ a b, compareDates getTime o a b ≤ 0)
    (emails (withSortedEmails getTime o group)).
Proof.
  apply sort_sorted; [apply compareDates_trans|apply compareDates_total].
Qed.

Lemma groups_sorted o data sorted :
  sortedData getTime (Some data) o = Some sorted →
  StronglySorted (λ g h, compareGroups getTime o g h ≤ 0) sorted.
Proof.
  intros [= <-].
  apply sort_sorted; [apply compareGroups_trans|apply compareGroups_total].
Qed.

(** Both comparators are consistent, so the two sorts of [sortedData] are
    the stable sorts that any engine computes. *)
Lemma emails_stably_sorted o group :
  stableSortOf (compareDates getTime o) (emails group)
    (emails (withSortedEmails getTime o group)).
Proof.
  apply sort_stableSortOf; [apply compareDates_trans|apply compareDates_total].
Qed.

Lemma groups_stably_sorted o data sorted :
  sortedData getTime (Some data) o = Some sorted →
  stableSortOf (compareGroups getTime o)
    (map (withSortedEmails getTime o) data) sorted.
Proof.
  intros [= <-].
  apply sort_stableSortOf; [apply compareGroups_trans|apply compareGroups_total].
Qed.

(** Every displayed group is a group of the data with its emails sorted. *)
Lemma sortedData_elem_of o data sorted group :
  sortedData getTime (Some data) o = Some sorted →
  group ∈ sorted →
  ∃ original, original ∈ data ∧ group = withSortedEmails getTime o original.
Proof.
  intros [= <-] Hin. rewrite sort_perm in Hin.
  apply list_elem_of_fmap in Hin as (original & -> & Hin). eauto.
Qed.

(** C1. After sorting, whatever the sort order, within each group every
    email whose date parses to a valid time stands before every email
    whose date is unparsable. *)
Theorem valid_dates_before_unparsable o data sorted group (i j : nat) a b :
  sortedData getTime (Some data) o = Some sorted →
  group ∈ sorted →
  emails group !! i = Some a →
  emails group !! j = Some b →
  is_Some (getTime (date a)) →
  getTime (date b) = None →
  (i < j)%nat.
Proof.
  intros Hsorted Hin Ha Hb [ta Hta] Htb.
  destruct (sortedData_elem_of _ _ _ _ Hsorted Hin) as (original & _ & ->).
  pose proof (emails_sorted o original) as Hs.
  destruct (lt_eq_lt_dec i j) as [[Hlt|Heq]|Hgt]; [done|..].
  - subst j. congruence.
  - pose proof (StronglySorted_lookup _ _ _ _ _ _ Hs Hb Ha Hgt) as Hle.
    unfold compareDates in Hle. rewrite Hta, Htb in Hle. lia.
Qed.

(** C5. After the emails of each group are sorted, the groups are ordered
    by the date of their first email in the chosen order: a group with
    no emails stands after every group that has some, a group whose
    first email has an unparsable date stands after every group whose
    first email has a valid one, and two valid first dates stand in the
    chosen order. *)
Theorem groups_ordered_by_first_email o data sorted (i j : nat) g h :
  sortedData getTime (Some data) o = Some sorted →
  sorted !! i = Some g →
  sorted !! j = Some h →
  (i < j)%nat →
  (emails g = [] → emails h = []) ∧
  (∀ a b, emails g !! 0%nat = Some a → emails h !! 0%nat = Some b →
     getTime (date a) = None → getTime (date b) = None) ∧
  (∀ a b ta tb, emails g !! 0%nat = Some a → emails h !! 0%nat = Some b →
     getTime (date a) = Some ta → getTime (date b) = Some tb →
     match o with
     | newest => tb ≤ ta
     | oldest => ta ≤ tb
     end).
Proof.
  intros Hsorted Hg Hh Hlt.
  pose proof (StronglySorted_lookup _ _ _ _ _ _
                (groups_sorted _ _ _ Hsorted) Hg Hh Hlt) as Hle.
  unfold compareGroups, compareDates in Hle.
  split; [|split].
  - intros Hempty. rewrite Hempty in Hle. simpl in Hle.
    destruct (emails h) as [|b rest]; [done|]. simpl in Hle. lia.
  - intros a b Ha Hb Hta. rewrite Ha, Hb, Hta in Hle.
    destruct (getTime (date b)); [lia|done].
  - intros a b ta tb Ha Hb Hta Htb. rewrite Ha, Hb, Hta, Htb in Hle.
    destruct o; lia.
Qed.

(** C6. Sorting is a permutation: the displayed groups are, up to their
    order, the groups of the data, each with its sender fields and with
    a permutation of its emails. *)
Theorem sortedData_is_permutation o data :
  ∃ sorted regrouped,
    sortedData getTime (Some data) o = Some sorted ∧
    Forall2 (λ original group,
               senderName group = senderName original ∧
               senderEmail group = senderEmail original ∧
               emails group ≡ₚ emails original) data regrouped ∧
    sorted ≡ₚ regrouped ∧
    length sorted = length data.
Proof.
  eexists _, (map (withSortedEmails getTime o) data).
  split; [reflexivity|]. split; [|split].
  - apply Forall2_fmap_r, Forall_Forall2_diag, Forall_forall.
    intros original _. repeat split. simpl. apply sort_perm.
  - apply sort_perm.
  - by rewrite sort_length, length_map.
Qed.
End SortedData.

(** ** Deletion *)

Section Deletion.
Implicit Types (data : list OrganizedEmailGroup) (g : OrganizedEmailGroup).

Lemma keep_nonempty data :
  JsArray.filter (λ g _, 0 <? Z.of_nat (length (emails g))) data
  = filter (λ g, emails g ≠ []) data.
Proof.
  rewrite filter_ignoring_index.
  induction data as [|g rest IH]; simpl; [done|].
  rewrite filter_cons, IH.
  destruct (emails g) eqn:He; simpl; done.
Qed.

Lemma handleDeleteEmail_unfold s i data :
  handleDeleteEmail s i (Some data)
  = Some (filter (λ g, emails g ≠ []) (map (deleteFromGroup s i) data)).
Proof. unfold handleDeleteEmail. by rewrite keep_nonempty. Qed.

Lemma deleteFromGroup_other s i g :
  senderEmail g ≠ s → deleteFromGroup s i g = g.
Proof. intros Hne. unfold deleteFromGroup. by rewrite bool_decide_eq_false_2. Qed.

Lemma deleteFromGroup_out_of_range s i g :
  i < 0 ∨ Z.of_nat (length (emails g)) ≤ i → deleteFromGroup s i g = g.
Proof.
  intros Hi. unfold deleteFromGroup. case_bool_decide; [|done].
  rewrite filter_out_of_range by done. by destruct g.
Qed.

Lemma deleteFromGroup_in_range s (i : nat) g :
  senderEmail g = s →
  deleteFromGroup s (Z.of_nat i) g
  = {| senderName := senderName g; senderEmail := senderEmail g;
       emails := delete i (emails g) |}.
Proof.
  intros Hs. unfold deleteFromGroup. rewrite bool_decide_eq_true_2 by done.
  by rewrite filter_out_index.
Qed.

Lemma displayed_nonempty getTime o data shown :
  Forall (λ g, emails g ≠ []) data →
  sortedData getTime (Some data) o = Some shown →
  Forall (λ g, emails g ≠ []) shown.
Proof.
  rewrite !Forall_forall. intros Hne Hshown g Hg.
  destruct (sortedData_elem_of _ _ _ _ _ Hshown Hg) as (original & Hin & ->).
  specialize (Hne _ Hin). simpl. intros Hnil.
  apply (f_equal length) in Hnil. rewrite sort_length in Hnil.
  by destruct (emails original).
Qed.

(** C2. With an index that is in range for every group whose
    [senderEmail] is the given one, Delete removes the email at that
    index from each of those groups, which shrinks each by exactly one
    email, leaves the other groups as they are, and drops the groups
    that have no emails; no group without emails is in the result or in
    what is displayed from it. *)
Theorem delete_removes_indexed_email s (i : nat) data :
  (∀ g, g ∈ data → senderEmail g = s → (i < length (emails g))%nat) →
  ∃ updated newData,
    handleDeleteEmail s (Z.of_nat i) (Some data) = Some newData ∧
    Forall2 (λ g g',
               senderName g' = senderName g ∧
               senderEmail g' = senderEmail g ∧
               if decide (senderEmail g = s)
               then emails g' = delete i (emails g) ∧
                    S (length (emails g')) = length (emails g)
               else emails g' = emails g) data updated ∧
    newData = filter (λ g, emails g ≠ []) updated ∧
    Forall (λ g, emails g ≠ []) newData ∧
    ∀ getTime o, ∃ shown,
      sortedData getTime (Some newData) o = Some shown ∧
      Forall (λ g, emails g ≠ []) shown.
Proof.
  intros Hrange.
  exists (map (deleteFromGroup s (Z.of_nat i)) data). eexists.
  split; [apply handleDeleteEmail_unfold|].
  assert (Forall (λ g, emails g ≠ [])
            (filter (λ g, emails g ≠ [])
               (map (deleteFromGroup s (Z.of_nat i)) data))) as Hne.
  { apply Forall_forall. intros g Hg. by apply list_elem_of_filter in Hg as [? _]. }
  split; [|split; [done|split; [done|]]].
  - apply Forall2_fmap_r, Forall_Forall2_diag, Forall_forall.
    intros g Hg. unfold compose. case_decide as Hs.
    + rewrite deleteFromGroup_in_range by done. simpl.
      repeat split. rewrite length_delete.
      * specialize (Hrange g Hg Hs). lia.
      * apply lookup_lt_is_Some. by apply Hrange.
    + by rewrite deleteFromGroup_other.
  - intros getTime o. eexists. split; [reflexivity|].
    by eapply displayed_nonempty.
Qed.

(** C7, amended. Deleting with a [senderEmail] that no group has returns
    the groups that have emails, with the same emails in the same
    order; every group without emails is dropped. When every group has
    an email, the result is the data itself. *)
Theorem delete_absent_sender s i data :
  (∀ g, g ∈ data → senderEmail g ≠ s) →
  handleDeleteEmail s i (Some data)
    = Some (filter (λ g, emails g ≠ []) data) ∧
  (Forall (λ g, emails g ≠ []) data →
   handleDeleteEmail s i (Some data) = Some data).
Proof.
  intros Habsent.
  assert (map (deleteFromGroup s i) data = data) as Hmap.
  { rewrite <- (map_id data) at 2. apply map_ext_in. intros g Hg.
    apply deleteFromGroup_other, Habsent. by apply list_elem_of_In. }
  rewrite handleDeleteEmail_unfold, Hmap. split; [done|].
  intros Hne. f_equal. clear -Hne.
  induction Hne as [|g rest Hg _ IH]; [done|].
  by rewrite filter_cons_True, IH.
Qed.

(** C10, amended. With an index at or beyond the end of a group whose
    [senderEmail] matches, Delete raises nothing and removes no email of
    that group: the group stays where it is, unchanged, when it has an
    email, and is dropped, as every group without emails is, when it has
    none. *)
Theorem delete_out_of_range s i before g after :
  senderEmail g = s →
  Z.of_nat (length (emails g)) ≤ i →
  ∃ before' after',
    handleDeleteEmail s i (Some before) = Some before' ∧
    handleDeleteEmail s i (Some after) = Some after' ∧
    handleDeleteEmail s i (Some (before ++ g :: after))
      = Some (before' ++ (if decide (emails g = []) then [] else [g]) ++ after').
Proof.
  intros _ Hi. do 2 eexists.
  split; [apply handleDeleteEmail_unfold|].
  split; [apply handleDeleteEmail_unfold|].
  rewrite handleDeleteEmail_unfold, map_app, filter_app. simpl.
  rewrite filter_cons, deleteFromGroup_out_of_range by auto.
  do 2 f_equal. case_decide; case_decide; done.
Qed.
End Deletion.

(** ** Sorting by opposite comparators *)

Section Reversal.
Context {A : Type}.
Implicit Types (x y : A) (l : list A).

Lemma StronglySorted_of_lookup (R : A → A → Prop) l :
  (∀ (i j : nat) x y,
      (i < j)%nat → l !! i = Some x → l !! j = Some y → R x y) →
  StronglySorted R l.
Proof.
  induction l as [|z rest IH]; intros H; constructor.
  - apply IH. intros i j x y Hlt Hx Hy. by apply (H (S i) (S j)); [lia|..].
  - apply Forall_lookup. intros j y Hy. by apply (H 0%nat (S j) z y); [lia|..].
Qed.

(** A symmetric relation that holds between the elements at any two
    positions still does so after a permutation. *)
Lemma pairwise_perm (P : A → A → Prop) l l' :
  (∀ x y, P x y → P y x) →
  l ≡ₚ l' → StronglySorted P l → StronglySorted P l'.
Proof.
  intros Hsym Hperm. induction Hperm as [|x l l' Hperm IH|x y l|l l' l'' _ IH1 _ IH2].
  - done.
  - rewrite !StronglySorted_cons. intros [Hx Hl]. split; [|by apply IH].
    by rewrite <- Hperm.
  - rewrite !StronglySorted_cons, !Forall_cons.
    intros [[Hyx Hy] [Hx Hl]]. eauto 10.
  - eauto.
Qed.

Lemma StronglySorted_reverse (R : A → A → Prop) l :
  StronglySorted R l → StronglySorted (flip R) (reverse l).
Proof.
  induction 1 as [|x l Hl IH Hx]; [constructor|].
  rewrite reverse_cons. apply StronglySorted_app_2; [|done|repeat constructor].
  intros y x' Hy Hx'. apply list_elem_of_singleton in Hx' as ->.
  rewrite Forall_forall in Hx. apply Hx. by apply elem_of_reverse.
Qed.

(** Sorting by a comparator yields the reverse of sorting by one that is
    opposed to it on the elements of any two positions. *)
Lemma sort_reversed (cmp cmp' : A → A → Z) l :
  (∀ x y z, cmp x y ≤ 0 → cmp y z ≤ 0 → cmp x z ≤ 0) →
  (∀ x y, 0 < cmp x y → cmp y x ≤ 0) →
  (∀ x y z, cmp' x y ≤ 0 → cmp' y z ≤ 0 → cmp' x z ≤ 0) →
  (∀ x y, 0 < cmp' x y → cmp' y x ≤ 0) →
  (∀ (i j : nat) x y,
      i ≠ j → l !! i = Some x → l !! j = Some y → opposed cmp cmp' x y) →
  JsArray.sort cmp' l = reverse (JsArray.sort cmp l).
Proof.
  intros Htrans Htotal Htrans' Htotal' Hopp.
  set (P := λ x y, opposed cmp cmp' x y ∧ opposed cmp cmp' y x).
  assert (StronglySorted P (JsArray.sort cmp l)) as HP.
  { apply (pairwise_perm P l); [by intros x y []|by rewrite sort_perm|].
    apply StronglySorted_of_lookup. intros i j x y Hlt Hx Hy.
    split; [apply (Hopp i j)|apply (Hopp j i)]; (done || lia). }
  apply (StronglySorted_unique_strong (λ u v, cmp' u v ≤ 0)).
  - intros x1 x2 H1 H2 H12 H21.
    rewrite sort_perm in H1. rewrite elem_of_reverse, sort_perm in H2.
    apply list_elem_of_lookup in H1 as [i1 H1].
    apply list_elem_of_lookup in H2 as [i2 H2].
    destruct (decide (i1 = i2)) as [->|Hne]; [congruence|].
    pose proof (Hopp _ _ _ _ Hne H1 H2) as Ha.
    assert (i2 ≠ i1) as Hne' by done.
    pose proof (Hopp _ _ _ _ Hne' H2 H1) as Hb.
    destruct Ha as [[? ?]|[Ha ?]], Hb as [[? ?]|[Hb ?]]; try lia.
    apply Htotal in Ha. lia.
  - by apply sort_sorted.
  - apply (StronglySorted_reverse (λ u v, cmp' v u ≤ 0)).
    apply StronglySorted_of_lookup. intros i j x y Hlt Hx Hy.
    pose proof (StronglySorted_lookup _ _ _ _ _ _ HP Hx Hy Hlt) as [Ha _].
    pose proof (StronglySorted_lookup _ _ _ _ _ _
                  (sort_sorted cmp Htrans Htotal l) Hx Hy Hlt) as Hle.
    simpl in Hle. destruct Ha as [[_ Ha]|[? _]]; [|lia].
    by apply Htotal'.
  - by rewrite reverse_Permutation, !sort_perm.
Qed.
End Reversal.

Lemma pairwise_lookup {A} (p : A → A → bool) (l : list A) (i j : nat) x y :
  pairwise p l = true → (i < j)%nat → l !! i = Some x → l !! j = Some y →
  p x y = true.
Proof.
  revert i j. induction l as [|z rest IH]; intros i j Hp Hlt Hx Hy; [done|].
  simpl in Hp. apply andb_true_iff in Hp as [Hz Hrest].
  destruct i as [|i], j as [|j]; try lia; simpl in *.
  - simplify_eq. rewrite forallb_forall in Hz. apply Hz.
    apply list_elem_of_In. by eapply list_elem_of_lookup_2.
  - apply (IH i j); [done|lia|done..].
Qed.

Lemma first_of_permutation {A} (l l' : list A) :
  l' ≡ₚ l → l ≠ [] → ∃ a, l' !! 0%nat = Some a ∧ a ∈ l.
Proof.
  intros Hperm Hne. destruct l' as [|a rest].
  - apply Permutation_nil in Hperm. done.
  - exists a. split; [done|]. rewrite <- Hperm. by left.
Qed.

Lemma map_reverse {A B} (f : A → B) (l : list A) :
  map f (reverse l) = reverse (map f l).
Proof. apply (fmap_reverse f l). Qed.

Section NewestOldest.
Variable getTime : string → option Z.
Implicit Types (data : list OrganizedEmailGroup) (g h : OrganizedEmailGroup).

Lemma allDatesValid_elem_of data g e :
  allDatesValid getTime data = true → g ∈ data → e ∈ emails g →
  ∃ t, getTime (date e) = Some t.
Proof.
  unfold allDatesValid. rewrite forallb_forall. intros Hall Hg He.
  apply list_elem_of_In, Hall in Hg. rewrite forallb_forall in Hg.
  apply list_elem_of_In, Hg in He. by apply bool_decide_eq_true_1 in He.
Qed.

Lemma entirelyBefore_elem_of g h a b ta tb :
  entirelyBefore getTime g h = true → a ∈ emails g → b ∈ emails h →
  getTime (date a) = Some ta → getTime (date b) = Some tb → ta < tb.
Proof.
  unfold entirelyBefore. rewrite forallb_forall. intros Hbefore Ha Hb Hta Htb.
  apply list_elem_of_In, Hbefore in Ha. rewrite forallb_forall in Ha.
  apply list_elem_of_In, Ha in Hb. unfold earlier in Hb.
  rewrite Hta, Htb in Hb. lia.
Qed.

Lemma emails_reversed g :
  (∀ e, e ∈ emails g → is_Some (getTime (date e))) →
  distinctTimes getTime g = true →
  withSortedEmails getTime oldest g
  = reverseEmails (withSortedEmails getTime newest g).
Proof.
  intros Hvalid Hdistinct. apply bool_decide_eq_true_1 in Hdistinct.
  unfold withSortedEmails, reverseEmails. simpl. f_equal.
  apply sort_reversed; try apply compareDates_trans; try apply compareDates_total.
  intros i j a b Hne Ha Hb.
  destruct (Hvalid a) as [ta Hta]; [by eapply list_elem_of_lookup_2|].
  destruct (Hvalid b) as [tb Htb]; [by eapply list_elem_of_lookup_2|].
  assert (ta ≠ tb) as Hdiff.
  { intros ->. apply Hne. eapply (NoDup_lookup _ i j (Some tb) Hdistinct).
    - by rewrite list_lookup_fmap, Ha; simpl; rewrite Hta.
    - by rewrite list_lookup_fmap, Hb; simpl; rewrite Htb. }
  unfold opposed, compareDates. rewrite Hta, Htb. lia.
Qed.

(** C3, amended. When every date parses to a valid time and no two
    emails of one group parse to the same time, sorting with oldest puts
    the emails of each group in the exact reverse of their order under
    newest. When moreover every group has an email and, of any two
    groups, one has all its emails earlier than all emails of the other,
    the groups overall are in the exact reverse order as well. *)
Theorem oldest_reverses_newest data :
  allDatesValid getTime data = true →
  forallb (distinctTimes getTime) data = true →
  (∀ g, g ∈ data →
     withSortedEmails getTime oldest g
     = reverseEmails (withSortedEmails getTime newest g)) ∧
  (forallb hasEmails data = true →
   apart getTime data = true →
   ∃ byNewest,
     sortedData getTime (Some data) newest = Some byNewest ∧
     sortedData getTime (Some data) oldest
       = Some (reverse (map reverseEmails byNewest))).
Proof.
  intros Hvalid Hdistinct.
  assert (∀ g, g ∈ data →
            withSortedEmails getTime oldest g
            = reverseEmails (withSortedEmails getTime newest g)) as Hemails.
  { intros g Hg. apply emails_reversed.
    - intros e He. by eapply allDatesValid_elem_of.
    - rewrite forallb_forall in Hdistinct. by apply Hdistinct, list_elem_of_In. }
  split; [done|]. intros Hfull Hapart.
  eexists. split; [reflexivity|]. simpl. f_equal.
  rewrite <- map_reverse.
  replace (map (withSortedEmails getTime oldest) data)
    with (map reverseEmails (map (withSortedEmails getTime newest) data)).
  2:{ rewrite map_map. apply map_ext_in. intros g Hg.
      symmetry. by apply Hemails, list_elem_of_In. }
  rewrite sort_map. f_equal.
  apply sort_reversed.
  - apply compareGroups_trans.
  - apply compareGroups_total.
  - intros x y z. apply compareGroups_trans.
  - intros x y. apply compareGroups_total.
  - intros i j x y Hne Hx Hy.
    rewrite list_lookup_fmap in Hx, Hy.
    destruct (data !! i) as [g|] eqn:Hg; [|done].
    destruct (data !! j) as [h|] eqn:Hh; [|done].
    simpl in Hx, Hy. simplify_eq.
    assert (g ∈ data) as Hgin by by eapply list_elem_of_lookup_2.
    assert (h ∈ data) as Hhin by by eapply list_elem_of_lookup_2.
    assert (∀ k, k ∈ data → emails k ≠ []) as Hnonempty.
    { intros k Hk. rewrite forallb_forall in Hfull.
      apply list_elem_of_In, Hfull in Hk. unfold hasEmails in Hk.
      by apply negb_true_iff, bool_decide_eq_false in Hk. }
    destruct (first_of_permutation (emails g)
                (JsArray.sort (compareDates getTime newest) (emails g)))
      as (a & Ha & Hain); [apply sort_perm|by apply Hnonempty|].
    destruct (first_of_permutation (emails h)
                (JsArray.sort (compareDates getTime newest) (emails h)))
      as (b & Hb & Hbin); [apply sort_perm|by apply Hnonempty|].
    destruct (first_of_permutation (emails g)
                (reverse (JsArray.sort (compareDates getTime newest) (emails g))))
      as (a' & Ha' & Hain');
      [by rewrite reverse_Permutation, sort_perm|by apply Hnonempty|].
    destruct (first_of_permutation (emails h)
                (reverse (JsArray.sort (compareDates getTime newest) (emails h))))
      as (b' & Hb' & Hbin');
      [by rewrite reverse_Permutation, sort_perm|by apply Hnonempty|].
    destruct (allDatesValid_elem_of _ _ _ Hvalid Hgin Hain) as [ta Hta].
    destruct (allDatesValid_elem_of _ _ _ Hvalid Hhin Hbin) as [tb Htb].
    destruct (allDatesValid_elem_of _ _ _ Hvalid Hgin Hain') as [ta' Hta'].
    destruct (allDatesValid_elem_of _ _ _ Hvalid Hhin Hbin') as [tb' Htb'].
    assert (entirelyBefore getTime g h || entirelyBefore getTime h g = true)
      as Hsep.
    { destruct (lt_eq_lt_dec i j) as [[Hlt|Heq]|Hgt]; [|done|].
      - by apply (pairwise_lookup
                    (λ g h, entirelyBefore getTime g h || entirelyBefore getTime h g)
                    data i j).
      - rewrite orb_comm.
        by apply (pairwise_lookup
                    (λ g h, entirelyBefore getTime g h || entirelyBefore getTime h g)
                    data j i). }
    unfold opposed, compareGroups. simpl.
    rewrite Ha, Hb, Ha', Hb'. unfold compareDates.
    rewrite Hta, Htb, Hta', Htb'.
    apply orb_true_iff in Hsep as [Hsep|Hsep].
    + pose proof (entirelyBefore_elem_of _ _ _ _ _ _ Hsep Hain Hbin Hta Htb).
      pose proof (entirelyBefore_elem_of _ _ _ _ _ _ Hsep Hain' Hbin' Hta' Htb').
      lia.
    + pose proof (entirelyBefore_elem_of _ _ _ _ _ _ Hsep Hbin Hain Htb Hta).
      pose proof (entirelyBefore_elem_of _ _ _ _ _ _ Hsep Hbin' Hain' Htb' Hta').
      lia.
Qed.
End NewestOldest.

(** ** The extraction contract *)

Section ExtractionFacts.
Variable trim : string → string.
Variable JSON_parse : string → option json.

Lemma getAiClient_unfold w st :
  getAiClient w st
  = match clientFor w st with
    | Some client => (inr client, Some client, [])
    | None => (inl (Error configMessage), st, [])
    end.
Proof.
  unfold getAiClient, clientFor, Eff.bind, Eff.readAi.
  destruct st as [client|]; [done|].
  destruct (truthy (API_KEY w)); done.
Qed.

(** What the response of the model is turned into. *)
Lemma organizeEmails_with_client w st client emailContent :
  clientFor w st = Some client →
  organizeEmails trim JSON_parse w emailContent st
  = (match generateContent w client (requestFor emailContent) with
     | inl e =>
         if instanceofError e && messageStartsWith "AI Service Error:" e
         then inl e else inl (Error genericMessage)
     | inr None => inl (Error genericMessage)
     | inr (Some text) =>
         match JSON_parse (trim text) with
         | None => inl (Error genericMessage)
         | Some v => if isArray v then inr v else inl (Error genericMessage)
         end
     end, Some client, [requestFor emailContent]).
Proof.
  intros Hclient.
  unfold organizeEmails, Eff.tryCatch, attempt, Eff.bind at 1.
  rewrite getAiClient_unfold, Hclient.
  unfold Eff.bind, Eff.send, Eff.ret, Eff.throw, handler. simpl.
  destruct (generateContent w client (requestFor emailContent))
    as [e|[text|]]; simpl.
  - destruct (instanceofError e && messageStartsWith "AI Service Error:" e);
      done.
  - destruct (JSON_parse (trim text)) as [v|]; simpl; [|done].
    destruct (isArray v); done.
  - done.
Qed.

Lemma organizeEmails_without_client w st emailContent :
  clientFor w st = None →
  organizeEmails trim JSON_parse w emailContent st
  = (inl (Error configMessage), st, []).
Proof.
  intros Hclient.
  unfold organizeEmails, Eff.tryCatch, attempt, Eff.bind at 1.
  rewrite getAiClient_unfold, Hclient. reflexivity.
Qed.

Lemma reachable_without_credential w st :
  truthy (API_KEY w) = false →
  reachable trim JSON_parse w st → st = None.
Proof.
  intros Hkey. induction 1 as [|st emailContent _ ->]; [done|].
  rewrite organizeEmails_without_client; [done|].
  unfold clientFor. by rewrite Hkey.
Qed.

(** C8. When the credential is absent from the environment, a call
    fails with the configuration message before anything is sent: no
    request goes out, so nothing is tried twice, and the message is not
    the one of the runtime failures. *)
Theorem missing_credential_fails_first w st emailContent :
  truthy (API_KEY w) = false →
  reachable trim JSON_parse w st →
  organizeEmails trim JSON_parse w emailContent st
    = (inl (Error configMessage), None, []) ∧
  configMessage ≠ genericMessage.
Proof.
  intros Hkey Hst.
  rewrite (reachable_without_credential _ _ Hkey Hst).
  split; [|done].
  apply organizeEmails_without_client. unfold clientFor. by rewrite Hkey.
Qed.


Lemma conforms_email v :
  conforms emailSchema v = true → is_Some (asEmail v).
Proof.
  destruct v as [| | | |?|fields]; try done. simpl.
  destruct (property "subject" fields) as [[]|],
           (property "date" fields) as [[]|],
           (property "summary" fields) as [[]|]; simpl; done.
Qed.

Lemma conforms_group v :
  conforms groupSchema v = true → is_Some (asGroup v).
Proof.
  destruct v as [| | | |?|fields]; try done. simpl.
  destruct (property "senderName" fields) as [[]|],
           (property "senderEmail" fields) as [[]|],
           (property "emails" fields) as [[| | | |es0|]|]; simpl; try done.
  rewrite andb_true_r. intros Hitems.
  assert (is_Some (mapM asEmail es0)) as [es Hes].
  { apply mapM_is_Some, Forall_forall. intros e He.
    apply conforms_email. rewrite forallb_forall in Hitems.
    by apply Hitems, list_elem_of_In. }
  rewrite Hes. by eexists.
Qed.

(** C4, amended. When a call succeeds, its result is an array, possibly
    empty: the value parsed from the trimmed text of the response. Only
    the top-level shape is checked; every element has the required
    fields, and is a group of emails, when the response conforms to the
    schema that was sent with the request. *)
Theorem success_is_parsed_array w st emailContent v st' sent :
  organizeEmails trim JSON_parse w emailContent st = (inr v, st', sent) →
  ∃ client text items,
    clientFor w st = Some client ∧
    generateContent w client (requestFor emailContent) = inr (Some text) ∧
    JSON_parse (trim text) = Some v ∧
    v = JArray items ∧
    (conforms schema v = true →
     ∃ groups,
       asGroups v = Some groups ∧
       Forall2 (λ item group, asGroup item = Some group) items groups).
Proof.
  intros Hok. destruct (clientFor w st) as [client|] eqn:Hclient.
  2:{ by rewrite organizeEmails_without_client in Hok. }
  rewrite (organizeEmails_with_client _ _ _ _ Hclient) in Hok.
  destruct (generateContent w client (requestFor emailContent))
    as [e|[text|]] eqn:Hanswer.
  - by destruct (instanceofError e && messageStartsWith "AI Service Error:" e).
  - destruct (JSON_parse (trim text)) as [u|] eqn:Hparse; [|done].
    destruct u as [| | | |items|]; try done. simpl in Hok. simplify_eq.
    exists client, text, items. repeat split; try done.
    simpl. intros Hitems.
    assert (is_Some (mapM asGroup items)) as [groups Hgroups].
    { apply mapM_is_Some, Forall_forall. intros x Hx.
      apply conforms_group. rewrite forallb_forall in Hitems.
      by apply Hitems, list_elem_of_In. }
    exists groups. split; [done|]. by apply mapM_Some_1.
  - done.
Qed.
End ExtractionFacts.

(** ** The claims on the sample data *)

Lemma valid_dates_before_unparsable_witness :
  sortedData Engine.getTime (Some Sample.withUndated) newest
    = Some [Sample.from "a@x.com" [Sample.july1; Sample.undated]] ∧
  (0 < 1)%nat.
Proof.
  split; [reflexivity|].
  apply (valid_dates_before_unparsable Engine.getTime newest
           Sample.withUndated
           [Sample.from "a@x.com" [Sample.july1; Sample.undated]]
           (Sample.from "a@x.com" [Sample.july1; Sample.undated])
           0 1 Sample.july1 Sample.undated).
  - reflexivity.
  - apply list_elem_of_here.
  - reflexivity.
  - reflexivity.
  - exists 1719792000000. reflexivity.
  - reflexivity.
Defined.

(** The end-to-end scenario: under newest, a@x.com comes before b@y.com,
    and within a@x.com 15 July comes before 1 July. *)
Lemma groups_ordered_by_first_email_witness :
  sortedData Engine.getTime (Some Sample.scenario) newest
    = Some [ Sample.from "a@x.com" [Sample.july15; Sample.july1];
             Sample.from "b@y.com" [Sample.july10] ] ∧
  ∀ a b ta tb,
    [Sample.july15; Sample.july1] !! 0%nat = Some a →
    [Sample.july10] !! 0%nat = Some b →
    Engine.getTime (date a) = Some ta → Engine.getTime (date b) = Some tb →
    tb ≤ ta.
Proof.
  split; [reflexivity|].
  apply (groups_ordered_by_first_email Engine.getTime newest Sample.scenario
           [ Sample.from "a@x.com" [Sample.july15; Sample.july1];
             Sample.from "b@y.com" [Sample.july10] ]
           0 1
           (Sample.from "a@x.com" [Sample.july15; Sample.july1])
           (Sample.from "b@y.com" [Sample.july10])).
  - reflexivity.
  - reflexivity.
  - reflexivity.
  - lia.
Defined.

(** Deleting the only email of a@x.com leaves no group for a@x.com. *)
Lemma delete_removes_indexed_email_witness :
  handleDeleteEmail "a@x.com" 0 (Some Sample.single) = Some [] ∧
  ∃ updated newData,
    handleDeleteEmail "a@x.com" (Z.of_nat 0) (Some Sample.single) = Some newData ∧
    Forall2 (λ g g',
               senderName g' = senderName g ∧
               senderEmail g' = senderEmail g ∧
               if decide (senderEmail g = "a@x.com")
               then emails g' = delete 0%nat (emails g) ∧
                    S (length (emails g')) = length (emails g)
               else emails g' = emails g) Sample.single updated ∧
    newData = filter (λ g, emails g ≠ []) updated ∧
    Forall (λ g, emails g ≠ []) newData ∧
    ∀ getTime o, ∃ shown,
      sortedData getTime (Some newData) o = Some shown ∧
      Forall (λ g, emails g ≠ []) shown.
Proof.
  split; [reflexivity|].
  apply (delete_removes_indexed_email "a@x.com" 0 Sample.single).
  intros g Hg _. apply list_elem_of_singleton in Hg as ->. simpl. lia.
Defined.

Lemma scenario_has_no_other_sender g :
  g ∈ Sample.scenario → senderEmail g ≠ "c@z.com".
Proof.
  intros Hg. apply elem_of_cons in Hg as [->|Hg]; [done|].
  apply list_elem_of_singleton in Hg as ->. done.
Qed.

Lemma delete_absent_sender_witness :
  handleDeleteEmail "c@z.com" 0 (Some Sample.scenario)
    = Some (filter (λ g, emails g ≠ []) Sample.scenario) ∧
  (Forall (λ g, emails g ≠ []) Sample.scenario →
   handleDeleteEmail "c@z.com" 0 (Some Sample.scenario) = Some Sample.scenario).
Proof.
  apply (delete_absent_sender "c@z.com" 0 Sample.scenario).
  apply scenario_has_no_other_sender.
Defined.

(** An absent sender and a group without emails: the group is dropped. *)
Lemma delete_absent_sender_drops_empty_group :
  (∀ g, g ∈ Sample.withEmptyGroup → senderEmail g ≠ "b@y.com") ∧
  handleDeleteEmail "b@y.com" 0 (Some Sample.withEmptyGroup) = Some [] ∧
  handleDeleteEmail "b@y.com" 0 (Some Sample.withEmptyGroup)
    ≠ Some Sample.withEmptyGroup.
Proof.
  split; [|split; [reflexivity|done]].
  intros g Hg. apply list_elem_of_singleton in Hg as ->. done.
Qed.

Lemma delete_out_of_range_witness :
  ∃ before' after',
    handleDeleteEmail "a@x.com" 2 (Some []) = Some before' ∧
    handleDeleteEmail "a@x.com" 2 (Some [Sample.from "b@y.com" [Sample.july10]])
      = Some after' ∧
    handleDeleteEmail "a@x.com" 2 (Some Sample.scenario)
      = Some (before' ++ [Sample.from "a@x.com" [Sample.july1; Sample.july15]]
                ++ after').
Proof.
  apply (delete_out_of_range "a@x.com" 2 []
           (Sample.from "a@x.com" [Sample.july1; Sample.july15])
           [Sample.from "b@y.com" [Sample.july10]]).
  - reflexivity.
  - simpl. lia.
Defined.

(** A matching group without emails and the index 0, which is past its
    end: the group is not returned. *)
Lemma delete_out_of_range_drops_empty_group :
  senderEmail (Sample.from "a@x.com" []) = "a@x.com" ∧
  Z.of_nat (length (emails (Sample.from "a@x.com" []))) ≤ 0 ∧
  Sample.from "a@x.com" [] ∈ Sample.withEmptyGroup ∧
  handleDeleteEmail "a@x.com" 0 (Some Sample.withEmptyGroup) = Some [].
Proof.
  split; [reflexivity|]. split; [simpl; lia|].
  split; [apply list_elem_of_here|reflexivity].
Qed.

(** In the scenario every date is valid, yet the groups stand in the same
    order under both sort orders: a@x.com holds both the newest and the
    oldest email. With two emails of one day, the emails of the group
    stand in the same order under both. *)
Lemma oldest_is_not_reverse_of_newest :
  (allDatesValid Engine.getTime Sample.scenario = true ∧
   sortedData Engine.getTime (Some Sample.scenario) newest
     = Some [ Sample.from "a@x.com" [Sample.july15; Sample.july1];
              Sample.from "b@y.com" [Sample.july10] ] ∧
   sortedData Engine.getTime (Some Sample.scenario) oldest
     = Some [ Sample.from "a@x.com" [Sample.july1; Sample.july15];
              Sample.from "b@y.com" [Sample.july10] ] ∧
   sortedData Engine.getTime (Some Sample.scenario) oldest
     ≠ Some (reverse (map reverseEmails
               [ Sample.from "a@x.com" [Sample.july15; Sample.july1];
                 Sample.from "b@y.com" [Sample.july10] ]))) ∧
  (allDatesValid Engine.getTime Sample.tied = true ∧
   sortedData Engine.getTime (Some Sample.tied) newest = Some Sample.tied ∧
   sortedData Engine.getTime (Some Sample.tied) oldest = Some Sample.tied ∧
   Some Sample.tied ≠ Some (reverse (map reverseEmails Sample.tied))).
Proof.
  split.
  - split; [reflexivity|]. split; [reflexivity|]. split; [reflexivity|].
    vm_compute. discriminate.
  - split; [reflexivity|]. split; [reflexivity|]. split; [reflexivity|].
    vm_compute. discriminate.
Qed.

Lemma oldest_reverses_newest_witness :
  (∀ g, g ∈ Sample.consecutive →
     withSortedEmails Engine.getTime oldest g
     = reverseEmails (withSortedEmails Engine.getTime newest g)) ∧
  ∃ byNewest,
    sortedData Engine.getTime (Some Sample.consecutive) newest = Some byNewest ∧
    sortedData Engine.getTime (Some Sample.consecutive) oldest
      = Some (reverse (map reverseEmails byNewest)).
Proof.
  destruct (oldest_reverses_newest Engine.getTime Sample.consecutive)
    as [Hemails Hgroups].
  - reflexivity.
  - vm_compute. reflexivity.
  - split; [exact Hemails|]. apply Hgroups.
    + reflexivity.
    + reflexivity.
Defined.

(** The model answers with an array that holds one empty object: the call
    succeeds, and the element has none of the required fields. *)
Lemma success_with_fieldless_element :
  organizeEmails Engine.trim Engine.JSON_parse (Sample.answering "[{}]")
      "From: a@x.com" None
    = (inr (JArray [JObject []]), Some Sample.client,
       [requestFor "From: a@x.com"]) ∧
  property "senderName" [] = None ∧
  property "senderEmail" [] = None ∧
  property "emails" [] = None ∧
  asGroups (JArray [JObject []]) = None.
Proof. vm_compute. repeat split. Qed.

Lemma success_is_parsed_array_witness :
  ∃ client text items,
    clientFor (Sample.answering "[]") None = Some client ∧
    generateContent (Sample.answering "[]") client (requestFor "From: a@x.com")
      = inr (Some text) ∧
    Engine.JSON_parse (Engine.trim text) = Some (JArray []) ∧
    JArray [] = JArray items ∧
    (conforms schema (JArray []) = true →
     ∃ groups,
       asGroups (JArray []) = Some groups ∧
       Forall2 (λ item group, asGroup item = Some group) items groups).
Proof.
  apply (success_is_parsed_array Engine.trim Engine.JSON_parse
           (Sample.answering "[]") None "From: a@x.com" (JArray [])
           (Some Sample.client) [requestFor "From: a@x.com"]).
  vm_compute. reflexivity.
Defined.

Lemma missing_credential_fails_first_witness :
  organizeEmails Engine.trim Engine.JSON_parse Sample.unconfigured
      "From: a@x.com" None
    = (inl (Error configMessage), None, []) ∧
  configMessage ≠ genericMessage.
Proof.
  apply (missing_credential_fails_first Engine.trim Engine.JSON_parse
           Sample.unconfigured None "From: a@x.com").
  - reflexivity.
  - apply reachable_init.
Defined.



(** The other runtime failures on sample worlds. *)
Example text_that_is_not_json :
  (organizeEmails Engine.trim Engine.JSON_parse
     (Sample.answering "Sorry, I cannot help.") "From: a@x.com" None).1.1
  = inl (Error genericMessage).
Proof. vm_compute. reflexivity. Qed.

Example rejected_call :
  (organizeEmails Engine.trim Engine.JSON_parse
     (Sample.rejecting (Error "got status: 429 Too Many Requests"))
     "From: a@x.com" None).1.1
  = inl (Error genericMessage).
Proof. vm_compute. reflexivity. Qed.


(** The index of a deletion is read against the data, not against what is
    displayed: under newest the display of the scenario shows 15 July at
    position 0 of a@x.com, and deleting position 0 removes 1 July. *)
Example deletion_index_is_a_data_index :
  sortedData Engine.getTime (Some Sample.scenario) newest
    = Some [ Sample.from "a@x.com" [Sample.july15; Sample.july1];
             Sample.from "b@y.com" [Sample.july10] ] ∧
  handleDeleteEmail "a@x.com" 0 (Some Sample.scenario)
    = Some [ Sample.from "a@x.com" [Sample.july15];
             Sample.from "b@y.com" [Sample.july10] ].
Proof. split; reflexivity. Qed.

(** A client that is already cached is used without a look at the
    credential; no call leaves such a client behind in a world without
    credential (lemma [reachable_without_credential]). *)
Example cached_client_is_reused :
  organizeEmails Engine.trim Engine.JSON_parse Sample.unconfigured
      "From: a@x.com" (Some Sample.client)
    = (inr (JArray []), Some Sample.client, [requestFor "From: a@x.com"]).
Proof. vm_compute. reflexivity. Qed.

(** ** Further properties of the sort *)

Lemma sort_idempotent {A} (cmp : A → A → Z) (l : list A) :
  (∀ x y z, cmp x y ≤ 0 → cmp y z ≤ 0 → cmp x z ≤ 0) →
  (∀ x y, 0 < cmp x y → cmp y x ≤ 0) →
  JsArray.sort cmp (JsArray.sort cmp l) = JsArray.sort cmp l.
Proof.
  intros Htrans Htotal. symmetry.
  apply (stableSortOf_unique cmp Htrans Htotal).
  split; [done|]. split; [by apply sort_sorted|done].
Qed.

Section SortedDataMore.
Variable getTime : string → option Z.
Implicit Types (data : list OrganizedEmailGroup) (g : OrganizedEmailGroup).

(** X1. Within each displayed group, two emails with valid dates stand in the
    chosen order: the later one first under newest, the earlier one first
    under oldest. *)
Theorem valid_dates_in_chosen_order o data sorted group (i j : nat) a b ta tb :
  sortedData getTime (Some data) o = Some sorted →
  group ∈ sorted →
  emails group !! i = Some a →
  emails group !! j = Some b →
  (i < j)%nat →
  getTime (date a) = Some ta →
  getTime (date b) = Some tb →
  match o with
  | newest => tb ≤ ta
  | oldest => ta ≤ tb
  end.
Proof.
  intros Hsorted Hin Ha Hb Hlt Hta Htb.
  destruct (sortedData_elem_of _ _ _ _ _ Hsorted Hin) as (original & _ & ->).
  pose proof (StronglySorted_lookup _ _ _ _ _ _
                (emails_sorted getTime o original) Ha Hb Hlt) as Hle.
  unfold compareDates in Hle. rewrite Hta, Htb in Hle. destruct o; lia.
Qed.

(** X2. Emails that the comparator cannot tell apart keep the order they have
    in the data, under both sort orders: the emails with unparsable dates
    ([k = None]) and the emails that parse to one same time
    ([k = Some t]). *)
Theorem tied_emails_keep_data_order o g (k : option Z) :
  List.filter (λ e, bool_decide (getTime (date e) = k))
              (emails (withSortedEmails getTime o g))
  = List.filter (λ e, bool_decide (getTime (date e) = k)) (emails g).
Proof.
  simpl. apply sort_stable. intros a b _ _ Ha Hb.
  apply bool_decide_eq_true_1 in Ha, Hb. unfold compareDates.
  rewrite Ha, Hb. destruct k, o; lia.
Qed.

(** X3. The first email of a displayed group is the extreme of the group:
    when the group has an email with a valid date, the first email has a
    valid date too, and no email of the group is later than it under
    newest, none earlier under oldest. *)
Theorem first_email_is_extreme o g first e t :
  emails (withSortedEmails getTime o g) !! 0%nat = Some first →
  e ∈ emails g →
  getTime (date e) = Some t →
  ∃ t0, getTime (date first) = Some t0 ∧
        match o with
        | newest => t ≤ t0
        | oldest => t0 ≤ t
        end.
Proof.
  intros Hfirst He Ht.
  assert (e ∈ emails (withSortedEmails getTime o g)) as He'.
  { simpl. by rewrite sort_perm. }
  apply list_elem_of_lookup in He' as [k Hk].
  destruct k as [|k].
  - assert (first = e) as -> by congruence.
    exists t. split; [done|]. destruct o; lia.
  - assert (0 < S k)%nat as Hlt by lia.
    pose proof (StronglySorted_lookup _ _ _ _ _ _
                  (emails_sorted getTime o g) Hfirst Hk Hlt) as Hle.
    unfold compareDates in Hle. rewrite Ht in Hle.
    destruct (getTime (date first)) as [t0|]; [|lia].
    exists t0. split; [done|]. destruct o; lia.
Qed.

Lemma withSortedEmails_idempotent o g :
  withSortedEmails getTime o (withSortedEmails getTime o g)
  = withSortedEmails getTime o g.
Proof.
  unfold withSortedEmails. simpl. f_equal.
  apply sort_idempotent; [apply compareDates_trans|apply compareDates_total].
Qed.

(** X4. Sorting what is displayed changes nothing: [sortedData] is
    idempotent for each sort order. *)
Theorem sortedData_idempotent o organizedData' :
  sortedData getTime (sortedData getTime organizedData' o) o
  = sortedData getTime organizedData' o.
Proof.
  destruct organizedData' as [data|]; [|done]. simpl. f_equal.
  assert (map (withSortedEmails getTime o)
            (JsArray.sort (compareGroups getTime o)
               (map (withSortedEmails getTime o) data))
          = JsArray.sort (compareGroups getTime o)
              (map (withSortedEmails getTime o) data)) as ->.
  { rewrite <- (map_id (JsArray.sort _ _)) at 2. apply map_ext_in.
    intros g Hg. apply list_elem_of_In in Hg. rewrite sort_perm in Hg.
    apply list_elem_of_fmap in Hg as (original & -> & _).
    apply withSortedEmails_idempotent. }
  apply sort_idempotent; [apply compareGroups_trans|apply compareGroups_total].
Qed.
End SortedDataMore.

(** ** Further properties of the deletion *)

Section DeletionMore.
Implicit Types (data : list OrganizedEmailGroup) (g : OrganizedEmailGroup).

Lemma filter_from_sublist {A} (p : A → nat → bool) (k : nat) (arr : list A) :
  JsArray.filter_from p k arr `sublist_of` arr.
Proof.
  revert k. induction arr as [|x rest IH]; intros k; simpl; [constructor|].
  destruct (p x k); [by apply sublist_skip|by apply sublist_cons].
Qed.

Lemma deleteFromGroup_sender s i g :
  senderName (deleteFromGroup s i g) = senderName g ∧
  senderEmail (deleteFromGroup s i g) = senderEmail g.
Proof. unfold deleteFromGroup. by case_bool_decide. Qed.

Lemma deleteFromGroup_sublist s i g :
  emails (deleteFromGroup s i g) `sublist_of` emails g.
Proof.
  unfold deleteFromGroup. case_bool_decide; [|done].
  apply filter_from_sublist.
Qed.



(** X6. An index that is negative, or at or past the end of every group of
    the sender, deletes no email: the result is the data without its
    groups that have no emails. *)
Theorem deletion_outside_every_group s i data :
  (∀ g, g ∈ data → senderEmail g = s →
        i < 0 ∨ Z.of_nat (length (emails g)) ≤ i) →
  handleDeleteEmail s i (Some data)
  = Some (filter (λ g, emails g ≠ []) data).
Proof.
  intros Hout. rewrite handleDeleteEmail_unfold. do 2 f_equal.
  rewrite <- (map_id data) at 2. apply map_ext_in. intros g Hg.
  apply list_elem_of_In in Hg.
  destruct (decide (senderEmail g = s)) as [Hs|Hs].
  - apply deleteFromGroup_out_of_range. by apply Hout.
  - by apply deleteFromGroup_other.
Qed.




Lemma filter_map_fixed {A} (Q : A → Prop) `{!∀ x, Decision (Q x)}
    (f : A → A) (l : list A) :
  (∀ x, Q (f x) → Q x) →
  (∀ x, Q x → f x = x) →
  filter Q (map f l) = filter Q l.
Proof.
  intros Hback Hfix. induction l as [|x rest IH]; [done|]. simpl.
  rewrite !filter_cons, IH.
  destruct (decide (Q x)) as [Hx|Hx].
  - rewrite (Hfix x Hx). by rewrite decide_True.
  - rewrite decide_False; [done|]. intros Hfx. by apply Hx, Hback.
Qed.

(** X8. A deletion never touches a group of another sender: those groups that
    have emails are in the result as they were, in their order. *)
Theorem deletion_spares_other_senders s i data newData :
  handleDeleteEmail s i (Some data) = Some newData →
  filter (λ g, senderEmail g ≠ s) newData
  = filter (λ g, senderEmail g ≠ s ∧ emails g ≠ []) data.
Proof.
  rewrite handleDeleteEmail_unfold. intros [= <-].
  rewrite list_filter_filter.
  apply (filter_map_fixed (λ g, senderEmail g ≠ s ∧ emails g ≠ [])).
  - intros g [Hs Hne].
    destruct (deleteFromGroup_sender s i g) as [_ Hkeep].
    rewrite Hkeep in Hs. split; [done|].
    by rewrite deleteFromGroup_other in Hne.
  - intros g [Hs _]. by apply deleteFromGroup_other.
Qed.

Lemma filter_map_filter {A} (P : A → Prop) `{!∀ x, Decision (P x)}
    (f : A → A) (l : list A) :
  (∀ x, P (f x) → P x) →
  filter P (map f (filter P l)) = filter P (map f l).
Proof.
  intros Hf. induction l as [|x rest IH]; [done|].
  rewrite filter_cons. simpl. case_decide as Hx.
  - simpl. by rewrite !filter_cons, IH.
  - rewrite IH, filter_cons. case_decide; [|done]. naive_solver.
Qed.

Lemma deleteFromGroup_commute s1 i1 s2 i2 g :
  s1 ≠ s2 →
  deleteFromGroup s1 i1 (deleteFromGroup s2 i2 g)
  = deleteFromGroup s2 i2 (deleteFromGroup s1 i1 g).
Proof.
  intros Hne.
  destruct (decide (senderEmail g = s1)) as [H1|H1].
  - rewrite (deleteFromGroup_other s2 i2 g) by congruence.
    rewrite (deleteFromGroup_other s2 i2); [done|].
    destruct (deleteFromGroup_sender s1 i1 g) as [_ ->]. congruence.
  - rewrite (deleteFromGroup_other s1 i1 g) by done.
    rewrite (deleteFromGroup_other s1 i1); [done|].
    by destruct (deleteFromGroup_sender s2 i2 g) as [_ ->].
Qed.

(** X9. Deletions for two different senders commute. *)
Theorem deletions_commute s1 i1 s2 i2 currentData :
  s1 ≠ s2 →
  handleDeleteEmail s1 i1 (handleDeleteEmail s2 i2 currentData)
  = handleDeleteEmail s2 i2 (handleDeleteEmail s1 i1 currentData).
Proof.
  intros Hne. destruct currentData as [data|]; [|done].
  rewrite (handleDeleteEmail_unfold s2), (handleDeleteEmail_unfold s1 i1 data).
  rewrite !handleDeleteEmail_unfold. f_equal.
  assert (∀ s i g, emails (deleteFromGroup s i g) ≠ [] → emails g ≠ []) as Hshrink.
  { intros s i g Hg Hnil. apply Hg.
    pose proof (deleteFromGroup_sublist s i g) as Hsub.
    rewrite Hnil in Hsub. by apply sublist_nil_r in Hsub. }
  rewrite !filter_map_filter by apply Hshrink.
  rewrite !map_map. f_equal. apply map_ext. intros g.
  by apply deleteFromGroup_commute.
Qed.
End DeletionMore.

(** ** Further properties of the extraction contract *)

Section ExtractionMore.
Variable trim : string → string.
Variable JSON_parse : string → option json.

Lemma organizeEmails_cases w st emailContent :
  (clientFor w st = None ∧
   organizeEmails trim JSON_parse w emailContent st
   = (inl (Error configMessage), st, [])) ∨
  (∃ client r,
     clientFor w st = Some client ∧
     organizeEmails trim JSON_parse w emailContent st
     = (r, Some client, [requestFor emailContent])).
Proof.
  destruct (clientFor w st) as [client|] eqn:Hclient.
  - right. exists client. eexists. split; [done|].
    by apply organizeEmails_with_client.
  - left. split; [done|]. by apply organizeEmails_without_client.
Qed.


(** X10. A call sends one request, the one built from the text, when it has a
    client, and none when it has not: never more than one, whatever the
    answer. *)
Theorem call_sends_one_request_at_most w st emailContent :
  (organizeEmails trim JSON_parse w emailContent st).2
  = match clientFor w st with
    | Some _ => [requestFor emailContent]
    | None => []
    end.
Proof.
  destruct (organizeEmails_cases w st emailContent)
    as [[Hclient ->]|(client & r & Hclient & ->)]; by rewrite Hclient.
Qed.

(** X11. In every state that calls can leave behind, the client a call works
    with carries the key of the environment, which is not empty, and the
    call leaves that client cached. *)
Theorem cached_client_has_the_key w st client emailContent :
  reachable trim JSON_parse w st →
  clientFor w st = Some client →
  API_KEY w = Some (apiKey client) ∧
  apiKey client ≠ "" ∧
  (organizeEmails trim JSON_parse w emailContent st).1.2 = Some client.
Proof.
  intros Hreach Hclient.
  assert (API_KEY w = Some (apiKey client) ∧ apiKey client ≠ "") as [Hkey Hne].
  { revert client Hclient.
    induction Hreach as [|st0 content0 Hreach IH]; intros client Hclient.
    - unfold clientFor in Hclient.
      destruct (API_KEY w) as [key|] eqn:Hkey; simpl in Hclient; [|done].
      destruct (String.eqb_spec key ""); simpl in Hclient; [done|].
      by simplify_eq.
    - destruct (organizeEmails_cases w st0 content0)
        as [[Hnone Heq]|(client0 & r & Hsome & Heq)];
        rewrite Heq in Hclient; simpl in Hclient.
      + rewrite Hnone in Hclient. done.
      + simplify_eq. by apply IH. }
  repeat split; try done.
  destruct (organizeEmails_cases w st emailContent)
    as [[Hnone _]|(client' & r & Hsome & ->)]; [congruence|].
  simpl. congruence.
Qed.


(** X13. A response that has no text fails with the generic message, after the
    one request. *)
Theorem response_without_text_fails w st client emailContent :
  clientFor w st = Some client →
  generateContent w client (requestFor emailContent) = inr None →
  organizeEmails trim JSON_parse w emailContent st
  = (inl (Error genericMessage), Some client, [requestFor emailContent]).
Proof.
  intros Hclient Hanswer.
  by rewrite (organizeEmails_with_client _ _ _ _ _ _ Hclient), Hanswer.
Qed.

(** X14. When a client is there and the trimmed response text parses to an
    array, the call succeeds with that array, whatever its elements are. *)
Theorem array_response_succeeds w st client emailContent text items :
  clientFor w st = Some client →
  generateContent w client (requestFor emailContent) = inr (Some text) →
  JSON_parse (trim text) = Some (JArray items) →
  organizeEmails trim JSON_parse w emailContent st
  = (inr (JArray items), Some client, [requestFor emailContent]).
Proof.
  intros Hclient Hanswer Hparse.
  by rewrite (organizeEmails_with_client _ _ _ _ _ _ Hclient), Hanswer, Hparse.
Qed.
End ExtractionMore.

(** ** The identity token *)

Example codec_decodes_the_sample_token :
  Jwt.decodeJwtResponse Codec.atob Codec.decodeURIComponent Engine.JSON_parse
    SampleApp.token
  = inr (JObject [("a", JNumber "1")]).
Proof. vm_compute. reflexivity. Qed.

Section JwtFacts.
Variable atob : string → option string.
Variable decodeURIComponent : string → option string.
Variable JSON_parse : string → option json.

Lemma split_nonempty sep s : Jwt.split sep s ≠ [].
Proof.
  destruct s as [|c rest]; simpl; [done|].
  destruct (Jwt.split sep rest); [done|]. by destruct (Ascii.eqb c sep).
Qed.

(** A string that splits into itself holds no separator: a separator
    after it ends the first piece. *)
Lemma split_app sep a b :
  Jwt.split sep a = [a] →
  Jwt.split sep (a +:+ String sep b) = a :: Jwt.split sep b.
Proof.
  induction a as [|c a IH]; simpl.
  - intros _. rewrite Ascii.eqb_refl.
    destruct (Jwt.split sep b) eqn:Hb; [|done].
    by apply split_nonempty in Hb.
  - destruct (Jwt.split sep a) as [|first others] eqn:Ha.
    { by apply split_nonempty in Ha. }
    destruct (Ascii.eqb c sep); [done|].
    intros [= -> ->]. by rewrite IH.
Qed.

Lemma second_segment h p rest :
  Jwt.split "." h = [h] → Jwt.split "." p = [p] →
  Jwt.split "." (h +:+ "." +:+ p +:+ "." +:+ rest) !! 1%nat = Some p.
Proof.
  intros Hh Hp.
  change (h +:+ "." +:+ p +:+ "." +:+ rest)
    with (h +:+ String "." (p +:+ String "." rest)).
  by rewrite (split_app "." h _ Hh), (split_app "." p _ Hp).
Qed.

(** X20. Only the second segment of a token is read: two tokens with the same
    payload segment decode alike, whatever their header and signature
    segments are. The signature is not looked at. *)
Theorem header_and_signature_are_ignored h h' p sig sig' :
  Jwt.split "." h = [h] →
  Jwt.split "." h' = [h'] →
  Jwt.split "." p = [p] →
  Jwt.decodeJwtResponse atob decodeURIComponent JSON_parse
    (h +:+ "." +:+ p +:+ "." +:+ sig)
  = Jwt.decodeJwtResponse atob decodeURIComponent JSON_parse
      (h' +:+ "." +:+ p +:+ "." +:+ sig').
Proof.
  intros Hh Hh' Hp. unfold Jwt.decodeJwtResponse, Jwt.payload.
  by rewrite !second_segment.
Qed.

(** X21. A token without a dot has no second segment and is refused with the
    one message of the decoder, before any builtin is called on it. *)
Theorem token_without_separator_is_refused token :
  Jwt.split "." token = [token] →
  Jwt.decodeJwtResponse atob decodeURIComponent JSON_parse token
  = inl (Error Jwt.invalidMessage).
Proof.
  intros Hsplit. unfold Jwt.decodeJwtResponse, Jwt.payload.
  by rewrite Hsplit.
Qed.
End JwtFacts.

Lemma unescape_escapeChar c rest :
  unescapeAll (Jwt.escapeChar c +:+ rest)
  = tail ← unescapeAll rest; Some (String c tail).
Proof.
  destruct c as [[] [] [] [] [] [] [] []]; reflexivity.
Qed.

(** X22. The escaping of the decoded bytes loses nothing: every character
    becomes a percent sign and two hexadecimal digits, and reading the
    triples back gives the binary string. *)
Theorem escapeAll_round_trip binary :
  unescapeAll (Jwt.escapeAll binary) = Some binary ∧
  String.length (Jwt.escapeAll binary) = (3 * String.length binary)%nat.
Proof.
  induction binary as [|c rest [IH1 IH2]]; [done|].
  change (Jwt.escapeAll (String c rest))
    with (Jwt.escapeChar c +:+ Jwt.escapeAll rest).
  split.
  - by rewrite unescape_escapeChar, IH1.
  - assert (∀ u v, String.length (u +:+ v)
                   = (String.length u + String.length v)%nat) as Happ.
    { induction u as [|x u IHu]; intros v; simpl; [done|]. by rewrite IHu. }
    rewrite Happ, IH2.
    assert (String.length (Jwt.escapeChar c) = 3%nat) as ->; [|simpl; lia].
    destruct c as [[] [] [] [] [] [] [] []]; reflexivity.
Qed.

(** ** The organize handler and the results panel *)

Section OrganizeClickFacts.
Variable trim : string → string.
Variable JSON_parse : string → option json.
Variable syntaxErrorMessage : string.
Variable typeErrorMessage : string.

Lemma handleOrganizeClick_call w s st :
  trim (rawEmails s) ≠ "" →
  handleOrganizeClick trim JSON_parse syntaxErrorMessage typeErrorMessage w s st
  = (inr ([SetIsLoading true; SetError None; SetOrganizedData None]
          ++ [match (organizeEmails trim JSON_parse w (rawEmails s) st).1.1 with
              | inr result => SetOrganizedData (Some result)
              | inl err => SetError (Some (shownMessage syntaxErrorMessage
                                             typeErrorMessage err))
              end]
          ++ [SetIsLoading false]),
     (organizeEmails trim JSON_parse w (rawEmails s) st).1.2,
     (organizeEmails trim JSON_parse w (rawEmails s) st).2).
Proof.
  intros Hne. unfold handleOrganizeClick.
  destruct (String.eqb_spec (trim (rawEmails s)) "") as [|_]; [done|].
  unfold Eff.bind, Eff.tryCatch, Eff.ret.
  destruct (organizeEmails trim JSON_parse w (rawEmails s) st)
    as [[[err|result] st'] sent]; simpl; by rewrite ?app_nil_r.
Qed.

(** X15. A click on text that is empty after trimming sends nothing and writes
    the validation message only: a result that is on display and the
    loading flag stay as they are. *)
Theorem blank_input_is_rejected w s st :
  trim (rawEmails s) = "" →
  ∃ updates,
    handleOrganizeClick trim JSON_parse syntaxErrorMessage typeErrorMessage
      w s st = (inr updates, st, []) ∧
    applyUpdates s updates
    = {| rawEmails := rawEmails s; organizedData := organizedData s;
         isLoading := isLoading s; error := Some validationMessage |}.
Proof.
  intros Hblank. eexists. unfold handleOrganizeClick.
  rewrite Hblank. simpl. split; reflexivity.
Qed.


(** X17. While the call is pending the panel has nothing stale to show: the
    first three writes of a click set the loading flag and clear the
    error and the result of the click before, and one write of the
    outcome and the reset of the flag follow. *)
Theorem click_clears_before_the_call w s st updates st' sent :
  trim (rawEmails s) ≠ "" →
  handleOrganizeClick trim JSON_parse syntaxErrorMessage typeErrorMessage w s st
  = (inr updates, st', sent) →
  ∃ outcome,
    updates = [SetIsLoading true; SetError None; SetOrganizedData None]
                ++ [outcome; SetIsLoading false] ∧
    applyUpdates s [SetIsLoading true; SetError None; SetOrganizedData None]
    = {| rawEmails := rawEmails s; organizedData := None;
         isLoading := true; error := None |}.
Proof.
  intros Hne Hclick. rewrite handleOrganizeClick_call in Hclick by done.
  simplify_eq. eexists. split; reflexivity.
Qed.

(** X18. After a click on blank text, with no call pending, the panel shows
    the validation message in place of whatever data it is given: a
    result that is still in the state is hidden. *)
Theorem blank_click_hides_the_result w s st updates st' sent data :
  trim (rawEmails s) = "" →
  isLoading s = false →
  handleOrganizeClick trim JSON_parse syntaxErrorMessage typeErrorMessage w s st
  = (inr updates, st', sent) →
  ResultsDisplay (isLoading (applyUpdates s updates))
                 (error (applyUpdates s updates)) data
  = ErrorPanel validationMessage.
Proof.
  intros Hblank Hidle Hclick. unfold handleOrganizeClick in Hclick.
  rewrite Hblank in Hclick. simpl in Hclick.
  unfold Eff.ret in Hclick. simplify_eq. simpl.
  by rewrite Hidle.
Qed.
End OrganizeClickFacts.

(** X19. After a deletion the panel, with no call pending and no error, shows
    the list of the groups that are left, each with an email, and "no
    emails found" once the last email is gone; never the placeholder. *)
Theorem panel_after_deletion getTime o s i data :
  ∃ newData shown,
    handleDeleteEmail s i (Some data) = Some newData ∧
    sortedData getTime (Some newData) o = Some shown ∧
    Forall (λ g, emails g ≠ []) shown ∧
    ResultsDisplay false None (Some shown)
    = if (emailCount newData =? 0)%nat then NoEmailsFound else GroupList shown.
Proof.
  pose proof (handleDeleteEmail_unfold s i data) as Hdelete.
  set (newData := filter (λ g, emails g ≠ []) (map (deleteFromGroup s i) data))
    in Hdelete.
  assert (Forall (λ g, emails g ≠ []) newData) as Hne.
  { apply Forall_forall. intros g Hg.
    by apply list_elem_of_filter in Hg as [? _]. }
  exists newData. eexists. split; [done|]. split; [reflexivity|].
  split; [by eapply displayed_nonempty|].
  unfold ResultsDisplay. simpl. rewrite sort_length, length_map.
  destruct newData as [|g rest]; [done|]. simpl.
  apply Forall_cons in Hne as [Hg _].
  unfold emailCount. simpl. destruct (emails g); [done|]. done.
Qed.

(** ** The further properties on the sample data *)

Lemma valid_dates_in_chosen_order_witness : 1719792000000 ≤ 1721001600000.
Proof.
  apply (valid_dates_in_chosen_order Engine.getTime newest Sample.scenario
           [ Sample.from "a@x.com" [Sample.july15; Sample.july1];
             Sample.from "b@y.com" [Sample.july10] ]
           (Sample.from "a@x.com" [Sample.july15; Sample.july1])
           0 1 Sample.july15 Sample.july1 1721001600000 1719792000000).
  - reflexivity.
  - apply list_elem_of_here.
  - reflexivity.
  - reflexivity.
  - lia.
  - reflexivity.
  - reflexivity.
Defined.

Lemma first_email_is_extreme_witness :
  ∃ t0, Engine.getTime (date Sample.july15) = Some t0 ∧ 1719792000000 ≤ t0.
Proof.
  apply (first_email_is_extreme Engine.getTime newest
           (Sample.from "a@x.com" [Sample.july1; Sample.july15])
           Sample.july15 Sample.july1 1719792000000).
  - reflexivity.
  - apply list_elem_of_here.
  - reflexivity.
Defined.

Lemma deletion_outside_every_group_witness :
  handleDeleteEmail "a@x.com" (-1) (Some Sample.scenario)
  = Some (filter (λ g, emails g ≠ []) Sample.scenario).
Proof.
  apply (deletion_outside_every_group "a@x.com" (-1) Sample.scenario).
  intros g _ _. left. lia.
Defined.


Lemma deletion_spares_other_senders_witness :
  filter (λ g, senderEmail g ≠ "a@x.com")
    [ Sample.from "a@x.com" [Sample.july15];
      Sample.from "b@y.com" [Sample.july10] ]
  = filter (λ g, senderEmail g ≠ "a@x.com" ∧ emails g ≠ []) Sample.scenario.
Proof.
  apply (deletion_spares_other_senders "a@x.com" 0 Sample.scenario).
  reflexivity.
Defined.

Lemma deletions_commute_witness :
  handleDeleteEmail "a@x.com" 1
    (handleDeleteEmail "b@y.com" 0 (Some Sample.scenario))
  = handleDeleteEmail "b@y.com" 0
      (handleDeleteEmail "a@x.com" 1 (Some Sample.scenario)).
Proof.
  apply (deletions_commute "a@x.com" 1 "b@y.com" 0 (Some Sample.scenario)).
  discriminate.
Defined.

Lemma cached_client_has_the_key_witness :
  API_KEY (Sample.answering "[]") = Some (apiKey Sample.client) ∧
  apiKey Sample.client ≠ "" ∧
  (organizeEmails Engine.trim Engine.JSON_parse (Sample.answering "[]")
     "From: a@x.com" None).1.2 = Some Sample.client.
Proof.
  apply (cached_client_has_the_key Engine.trim Engine.JSON_parse
           (Sample.answering "[]") None Sample.client "From: a@x.com").
  - apply reachable_init.
  - reflexivity.
Defined.


Lemma response_without_text_fails_witness :
  organizeEmails Engine.trim Engine.JSON_parse SampleApp.silent
    "From: a@x.com" None
  = (inl (Error genericMessage), Some Sample.client,
     [requestFor "From: a@x.com"]).
Proof.
  apply (response_without_text_fails Engine.trim Engine.JSON_parse
           SampleApp.silent None Sample.client "From: a@x.com");
    reflexivity.
Defined.

Lemma array_response_succeeds_witness :
  organizeEmails Engine.trim Engine.JSON_parse (Sample.answering " [{}] ")
    "From: a@x.com" None
  = (inr (JArray [JObject []]), Some Sample.client,
     [requestFor "From: a@x.com"]).
Proof.
  apply (array_response_succeeds Engine.trim Engine.JSON_parse
           (Sample.answering " [{}] ") None Sample.client "From: a@x.com"
           " [{}] " [JObject []]); reflexivity.
Defined.

Lemma blank_input_is_rejected_witness :
  ∃ updates,
    handleOrganizeClick Engine.trim Engine.JSON_parse "" ""
      (Sample.answering "[]") (SampleApp.showing "   " (JArray [])) None
    = (inr updates, None, []) ∧
    applyUpdates (SampleApp.showing "   " (JArray [])) updates
    = {| rawEmails := "   "; organizedData := Some (JArray []);
         isLoading := false; error := Some validationMessage |}.
Proof.
  apply (blank_input_is_rejected Engine.trim Engine.JSON_parse "" ""
           (Sample.answering "[]") (SampleApp.showing "   " (JArray [])) None).
  reflexivity.
Defined.


Lemma click_clears_before_the_call_witness :
  ∃ outcome,
    [SetIsLoading true; SetError None; SetOrganizedData None;
     SetOrganizedData (Some (JArray [])); SetIsLoading false]
    = [SetIsLoading true; SetError None; SetOrganizedData None]
        ++ [outcome; SetIsLoading false] ∧
    applyUpdates (SampleApp.showing "From: a@x.com" (JArray [JObject []]))
      [SetIsLoading true; SetError None; SetOrganizedData None]
    = {| rawEmails := "From: a@x.com"; organizedData := None;
         isLoading := true; error := None |}.
Proof.
  apply (click_clears_before_the_call Engine.trim Engine.JSON_parse "" ""
           (Sample.answering "[]")
           (SampleApp.showing "From: a@x.com" (JArray [JObject []])) None
           _ (Some Sample.client) [requestFor "From: a@x.com"]).
  - discriminate.
  - vm_compute. reflexivity.
Defined.

Lemma blank_click_hides_the_result_witness :
  ResultsDisplay
    (isLoading (applyUpdates (SampleApp.showing "   " (JArray []))
                  [SetError (Some validationMessage)]))
    (error (applyUpdates (SampleApp.showing "   " (JArray []))
              [SetError (Some validationMessage)]))
    (Some Sample.scenario)
  = ErrorPanel validationMessage.
Proof.
  apply (blank_click_hides_the_result Engine.trim Engine.JSON_parse "" ""
           (Sample.answering "[]") (SampleApp.showing "   " (JArray [])) None
           [SetError (Some validationMessage)] None []);
    reflexivity.
Defined.

Lemma header_and_signature_are_ignored_witness :
  Jwt.decodeJwtResponse Codec.atob Codec.decodeURIComponent Engine.JSON_parse
    SampleApp.token
  = Jwt.decodeJwtResponse Codec.atob Codec.decodeURIComponent Engine.JSON_parse
      SampleApp.forged.
Proof.
  apply (header_and_signature_are_ignored Codec.atob Codec.decodeURIComponent
           Engine.JSON_parse "header" "other" "eyJhIjoxfQ"
           "signature" "forged"); reflexivity.
Defined.

Lemma token_without_separator_is_refused_witness :
  Jwt.decodeJwtResponse Codec.atob Codec.decodeURIComponent Engine.JSON_parse
    "eyJhIjoxfQ"
  = inl (Error Jwt.invalidMessage).
Proof.
  apply (token_without_separator_is_refused Codec.atob
           Codec.decodeURIComponent Engine.JSON_parse "eyJhIjoxfQ").
  reflexivity.
Defined.
